(** * Tanks lobby server: a shallow embedding of the Go sources and the
      properties of its connection-and-room layer.

    The development follows the layout of the repository:
    - [shared] is the package [shared] (the message protocol);
    - the rest is package [main]: [generateID] (main.go), [Client]
      (client.go), [Lobby] (lobby.go) and [Hub] (hub.go).

    Conventions of the embedding.
    - A Go [map[string]T] is a [gmap string T]; a [for ... range] over a map
      visits the entries in an order the Go runtime chooses afresh at every
      loop, which is the explicit argument [ord] of the functions below.
    - A [*Client] is identified with the client's id: the immutable fields
      ([id], [name]) form the record [Client], the mutable ones (the
      buffered channel [send] and the field [lobby]) live in the [World]
      under that id.
    - A [*Lobby] is an index into [heap]; methods of [Lobby] take the
      receiver as a value and return its updated value.
    - Mutexes are not modelled: every method body runs atomically. *)

From Stdlib Require Import Strings.Ascii Strings.String Strings.Byte.
From stdpp Require Import gmap strings list fin_maps.

Local Open Scope string_scope.

Definition bytes := list byte.
Definition error := string.

(** ** package shared *)

Module shared.

Definition MessageType := string.

Definition MsgRequestLobbies : MessageType := "request_lobbies".
Definition MsgCreateLobby : MessageType := "create_lobby".
Definition MsgJoinLobby : MessageType := "join_lobby".
Definition MsgLeaveLobby : MessageType := "leave_lobby".
Definition MsgSetReady : MessageType := "set_ready".
Definition MsgStartGame : MessageType := "start_game".

Definition MsgLobbyList : MessageType := "lobby_list".
Definition MsgLobbyState : MessageType := "lobby_state".
Definition MsgPlayerJoined : MessageType := "player_joined".
Definition MsgPlayerLeft : MessageType := "player_left".
Definition MsgError : MessageType := "error".
Definition MsgGameStarting : MessageType := "game_starting".

(** [Payload] is [any] in Go; the envelope is polymorphic in what the
    payload holds: a typed struct on the way out, whatever
    [json.Unmarshal] produced on the way in. *)
Record Envelope (P : Type) := mkEnvelope { Type_ : MessageType; Payload : P }.
Arguments mkEnvelope {P} _ _.
Arguments Type_ {P} _.
Arguments Payload {P} _.

Record CreateLobbyPayload := { Name : string }.
Record JoinLobbyPayload := { LobbyID : string }.
Record SetReadyPayload := { Ready : bool }.

Record LobbyInfo := mkLobbyInfo {
  LI_ID : string; LI_Name : string; PlayerCount : nat; MaxPlayers : nat; InGame : bool }.

Record PlayerInfo := mkPlayerInfo {
  PI_ID : string; PI_Name : string; PI_Ready : bool; IsHost : bool }.

Record LobbyStatePayload := mkLobbyState {
  LS_LobbyID : string; LobbyName : string; Players : list PlayerInfo; YouAreHost : bool }.

(** The structs the server puts into [Envelope.Payload]. *)
Inductive OutPayload :=
| LobbyListPayload (Lobbies : list LobbyInfo)
| OfLobbyState (p : LobbyStatePayload)
| PlayerJoinedPayload (Player : PlayerInfo)
| PlayerLeftPayload (PlayerID : string)
| ErrorPayload (Message : string)
| GameStartingPayload (YourTankID : string).

End shared.

Import shared.

(** ** encoding/json

    The library is not part of the repository; the server is verified for
    every behaviour of it.  [Unmarshal] into a struct is given by the
    struct after the call (starting from the zero value) and the error. *)

Class JSON := {
  any : Type;
  Marshal : Envelope OutPayload → bytes + error;
  MarshalAny : any → bytes + error;
  UnmarshalEnvelope : bytes → Envelope any + error;
  UnmarshalCreateLobby : bytes → CreateLobbyPayload * option error;
  UnmarshalJoinLobby : bytes → JoinLobbyPayload * option error;
  UnmarshalSetReady : bytes → SetReadyPayload * option error
}.

(** ** main.go *)

Definition hexdigits : list ascii :=
  Eval cbv in list_ascii_of_string "0123456789abcdef".

Definition hexdigit (n : N) : ascii := nth (N.to_nat n) hexdigits "0"%char.

(** [hex.EncodeToString] *)
Fixpoint EncodeToString (b : bytes) : string :=
  match b with
  | [] => ""
  | x :: b' =>
      String (hexdigit (Byte.to_N x / 16))
        (String (hexdigit (Byte.to_N x mod 16)) (EncodeToString b'))
  end.

(** [generateID]: [b] starts as 16 zero bytes, [rand.Read] overwrites a
    prefix of it with the bytes [entropy] it obtained (all 16 unless it
    failed; its error is dropped). *)
Definition generateID (entropy : bytes) : string :=
  let b := take 16 (entropy ++ replicate 16 x00) in
  EncodeToString b.

(** ** client.go: the immutable part of a Client *)

Record Client := mkClient { id : string; name : string }.

(** [id[:6]] panics when the id has fewer than 6 bytes: [None]. *)
Definition NewClient (id : string) : option Client :=
  if decide (6 ≤ String.length id)%nat
  then Some {| id := id; name := "Player-" +:+ substring 0 6 id |}
  else None.

(** ** lobby.go: data *)

Definition maxPlayersPerLobby : nat := 4.

Definition GameState := string.
Definition waiting : GameState := "waiting".
Definition countDown : GameState := "starting game".
Definition inGame : GameState := "playing".

(** The struct [Lobby] without [mu] and [hub] (there is one hub, in the
    [World]).  The fields the constructor does not set hold Go's zero
    value. *)
Record Lobby := mkLobby {
  l_id : string;
  l_name : string;
  hostID : string;
  state : GameState;
  players : gmap string Client;
  ready : gmap string bool
}.

Definition set_hostID (h : string) (l : Lobby) : Lobby :=
  mkLobby (l_id l) (l_name l) h (state l) (players l) (ready l).
Definition set_state (s : GameState) (l : Lobby) : Lobby :=
  mkLobby (l_id l) (l_name l) (hostID l) s (players l) (ready l).
Definition set_players (p : gmap string Client) (l : Lobby) : Lobby :=
  mkLobby (l_id l) (l_name l) (hostID l) (state l) p (ready l).
Definition set_ready (r : gmap string bool) (l : Lobby) : Lobby :=
  mkLobby (l_id l) (l_name l) (hostID l) (state l) (players l) r.

(** Modelled from the spec: the field [inGame] that [addPlayer] and [Info]
    read ([l.inGame]) is not declared by the struct, which has
    [state GameState] in its place; the spec's guard is "state is not
    waiting". *)
Definition Lobby_inGame (l : Lobby) : bool := bool_decide (state l ≠ waiting).

Definition NewLobby (lobbyID lobbyName : string) (host : Client) : Lobby :=
  let l := {| l_id := lobbyID; l_name := lobbyName; hostID := host.(id);
              state := ""; players := ∅; ready := ∅ |} in
  let l := set_players (<[host.(id) := host]> (players l)) l in
  let l := set_ready (<[host.(id) := false]> (ready l)) l in
  l.

(** ** The mutable state of the server *)

Record World := mkWorld {
  lobbies : gmap string nat;          (* Hub.lobbies *)
  heap : list Lobby;                  (* the Lobby objects *)
  send : gmap string (list bytes);    (* Client.send, capacity 64 *)
  lobby : gmap string nat;            (* Client.lobby, nil when absent *)
  log : list string;                  (* what log.Printf wrote *)
  tick : nat                          (* number of range loops run so far *)
}.

Definition set_lobbies (x : gmap string nat) (w : World) : World :=
  mkWorld x (heap w) (send w) (lobby w) (log w) (tick w).
Definition set_heap (x : list Lobby) (w : World) : World :=
  mkWorld (lobbies w) x (send w) (lobby w) (log w) (tick w).
Definition set_send (x : gmap string (list bytes)) (w : World) : World :=
  mkWorld (lobbies w) (heap w) x (lobby w) (log w) (tick w).
Definition set_lobby (x : gmap string nat) (w : World) : World :=
  mkWorld (lobbies w) (heap w) (send w) x (log w) (tick w).
Definition Printf (line : string) (w : World) : World :=
  mkWorld (lobbies w) (heap w) (send w) (lobby w) (log w ++ [line]) (tick w).
Definition set_tick (x : nat) (w : World) : World :=
  mkWorld (lobbies w) (heap w) (send w) (lobby w) (log w) x.

Definition NewWorld : World := mkWorld ∅ [] ∅ ∅ [] 0.

(** The order in which the [k]-th range loop of a run visits a map whose
    entries are [l]. *)
Definition RangeOrder := nat → ∀ A : Type, list A → list A.

Definition is_order (ord : RangeOrder) : Prop :=
  ∀ k A (l : list A), ord k A l ≡ₚ l.

Definition sendCap : nat := 64.

(** The content of a client's channel; nothing was sent to a client the
    map does not have. *)
Definition queue (w : World) (cid : string) : list bytes := default [] (send w !! cid).

Section Server.
Context `{!JSON} (ord : RangeOrder).

Definition range {A} (m : gmap string A) (w : World) : list (string * A) * World :=
  (ord (tick w) _ (map_to_list m), set_tick (S (tick w)) w).

(** *** client.go: sending *)

Definition sendEnvelope (c : Client) (env : Envelope OutPayload) (w : World) : World :=
  match Marshal env with
  | inr err => Printf ("marshal error: " +:+ err) w
  | inl data =>
      if decide (length (queue w c.(id)) < sendCap)%nat
      then set_send (<[c.(id) := (queue w c.(id) ++ [data])%list]> (send w)) w
      else Printf ("client " +:+ c.(id) +:+ " send buffer full, dropping") w
  end.

Definition sendError (c : Client) (msg : string) (w : World) : World :=
  sendEnvelope c (mkEnvelope MsgError (ErrorPayload msg)) w.

(** *** hub.go *)

Definition getLobby (id : string) (w : World) : option nat := lobbies w !! id.

Definition removeLobby (id : string) (w : World) : World :=
  Printf ("lobby removed: " +:+ id) (set_lobbies (delete id (lobbies w)) w).

(** *** lobby.go: methods *)

Definition broadcastUnlocked (l : Lobby) (env : Envelope OutPayload) (w : World) : World :=
  let '(kvs, w) := range (players l) w in
  foldl (λ w kv, sendEnvelope kv.2 env w) w kvs.

Definition sendStateToClientUnlocked (l : Lobby) (c : Client) (w : World) : World :=
  let '(kvs, w) := range (players l) w in
  let ps := map (λ kv : string * Client,
              mkPlayerInfo kv.1 kv.2.(name) (default false (ready l !! kv.1))
                (bool_decide (kv.1 = hostID l))) kvs in
  sendEnvelope c
    (mkEnvelope MsgLobbyState
       (OfLobbyState (mkLobbyState (l_id l) (l_name l) ps (bool_decide (c.(id) = hostID l)))))
    w.

Definition sendStateToAllUnlocked (l : Lobby) (w : World) : World :=
  let '(kvs, w) := range (players l) w in
  foldl (λ w kv, sendStateToClientUnlocked l kv.2 w) w kvs.

Definition sendStateToAll := sendStateToAllUnlocked.

Definition GameInProgress : error := "game already in progress".
Definition RoomFull : error := "lobby is full".
Definition AlreadyMember : error := "already in this lobby".

Definition addPlayer (l : Lobby) (c : Client) (w : World) : option error * Lobby * World :=
  if Lobby_inGame l then (Some GameInProgress, l, w)
  else if decide (maxPlayersPerLobby ≤ size (players l))%nat then (Some RoomFull, l, w)
  else if decide (is_Some (players l !! c.(id))) then (Some AlreadyMember, l, w)
  else
    let l := set_players (<[c.(id) := c]> (players l)) l in
    let l := set_ready (<[c.(id) := false]> (ready l)) l in
    let w := broadcastUnlocked l
               (mkEnvelope MsgPlayerJoined
                  (PlayerJoinedPayload (mkPlayerInfo c.(id) c.(name) false false))) w in
    let w := sendStateToClientUnlocked l c w in
    (None, l, w).

Definition removePlayer (l : Lobby) (c : Client) (w : World) : Lobby * World :=
  if decide (is_Some (players l !! c.(id))) then
    let l := set_players (delete c.(id) (players l)) l in
    let l := set_ready (delete c.(id) (ready l)) l in
    if decide (size (players l) = 0)%nat then (l, removeLobby (l_id l) w)
    else
      let '(l, w) :=
        if decide (hostID l = c.(id)) then
          let '(kvs, w) := range (players l) w in
          match kvs with
          | kv :: _ => (set_hostID kv.1 l, w)
          | [] => (l, w)
          end
        else (l, w) in
      let w := broadcastUnlocked l (mkEnvelope MsgPlayerLeft (PlayerLeftPayload c.(id))) w in
      let w := sendStateToAllUnlocked l w in
      (l, w)
  else (l, w).

Definition Info (l : Lobby) : LobbyInfo :=
  mkLobbyInfo (l_id l) (l_name l) (size (players l)) maxPlayersPerLobby (Lobby_inGame l).

(** Modelled from the spec: [Lobby.setPlayerReady] is called by
    [handleSetReady] and is not in the repository.  "No-op (not an
    error) if session id absent from ready.  Otherwise set the flag and
    broadcast updated room_state to all members." *)
Definition setPlayerReady (l : Lobby) (c : Client) (r : bool) (w : World) : Lobby * World :=
  match ready l !! c.(id) with
  | None => (l, w)
  | Some _ =>
      let l := set_ready (<[c.(id) := r]> (ready l)) l in
      (l, sendStateToAllUnlocked l w)
  end.

Definition NotHost : error := "only the host can start the game".
Definition NotAllReady : error := "not all players are ready".

(** Every member's ready flag is true ([l.ready[id]] is false for an
    id the map does not have). *)
Definition allReady (l : Lobby) : bool :=
  bool_decide (map_Forall (λ k (_ : Client), default false (ready l !! k) = true) (players l)).

(** Modelled from the spec: [Lobby.tryStart] is called by
    [handleStartGame] and is not in the repository.  "Fails (with an
    error sent only to the requester) unless session.id == hostID; fails
    unless state == waiting; fails unless every member's ready flag is
    true.  On success, transition state to starting and broadcast
    game_starting to all members."  The result is the error, if any. *)
Definition tryStart (l : Lobby) (c : Client) (w : World) : option error * Lobby * World :=
  if decide (c.(id) ≠ hostID l) then (Some NotHost, l, sendError c NotHost w)
  else if decide (state l ≠ waiting) then (Some GameInProgress, l, sendError c GameInProgress w)
  else if negb (allReady l) then (Some NotAllReady, l, sendError c NotAllReady w)
  else
    let l := set_state countDown l in
    (None, l, broadcastUnlocked l (mkEnvelope MsgGameStarting (GameStartingPayload "")) w).

(** *** hub.go, continued *)

(** [entropy] is what [crypto/rand] delivers to this call. *)
Definition createLobby (name : string) (host : Client) (entropy : bytes) (w : World)
  : nat * World :=
  let id := generateID entropy in
  let lobby := NewLobby id name host in
  let p := length (heap w) in
  let w := set_heap (heap w ++ [lobby]) w in
  let w := set_lobbies (<[id := p]> (lobbies w)) w in
  (p, Printf ("lobby created: " +:+ name +:+ " (" +:+ id +:+ ")") w).

Definition sendLobbyList (c : Client) (w : World) : World :=
  let '(kvs, w) := range (lobbies w) w in
  let infos := omap (λ kv : string * nat, Info <$> heap w !! kv.2) kvs in
  sendEnvelope c (mkEnvelope MsgLobbyList (LobbyListPayload infos)) w.

(** *** client.go: handlers *)

(** The bytes a handler unmarshals the payload from: [json.Marshal] of
    the payload, [nil] when that failed and the error was dropped. *)
Definition remarshal (payload : any) : bytes :=
  match MarshalAny payload with inl d => d | inr _ => [] end.

(** A method call through the pointer [p]: the method runs on the
    object and the object is written back. *)
Definition call {R} (p : nat) (m : Lobby → World → R * Lobby * World) (dflt : R) (w : World)
  : R * World :=
  match heap w !! p with
  | Some l => let '(r, l, w) := m l w in (r, set_heap (<[p := l]> (heap w)) w)
  | None => (dflt, w)
  end.

Definition call_ (p : nat) (m : Lobby → World → Lobby * World) (w : World) : World :=
  (call p (λ l w, let '(l, w) := m l w in (tt, l, w)) tt w).2.

Definition setLobby (c : Client) (l : option nat) (w : World) : World :=
  match l with
  | Some p => set_lobby (<[c.(id) := p]> (lobby w)) w
  | None => set_lobby (delete c.(id) (lobby w)) w
  end.

Definition handleLeaveLobby (c : Client) (w : World) : World :=
  let lobby := lobby w !! c.(id) in
  let w := setLobby c None w in
  match lobby with
  | Some p => call_ p (λ l w, removePlayer l c w) w
  | None => w
  end.

Definition handleCreateLobby (c : Client) (payload : any) (entropy : bytes) (w : World) : World :=
  let data := remarshal payload in
  let '(p, err) := UnmarshalCreateLobby data in
  if decide (err ≠ None ∨ p.(Name) = "") then sendError c "invalid lobby name" w
  else
    let w := handleLeaveLobby c w in
    let '(lobby, w) := createLobby p.(Name) c entropy w in
    let w := setLobby c (Some lobby) w in
    call_ lobby (λ l w, (l, sendStateToAll l w)) w.

Definition handleJoinLobby (c : Client) (payload : any) (w : World) : World :=
  let data := remarshal payload in
  let '(p, err) := UnmarshalJoinLobby data in
  if decide (err ≠ None ∨ p.(LobbyID) = "") then sendError c "invalid lobby id" w
  else
    let w := handleLeaveLobby c w in
    match getLobby p.(LobbyID) w with
    | None => sendError c "lobby not found" w
    | Some lobby =>
        match call lobby (λ l w, addPlayer l c w) None w with
        | (Some err, w) => sendError c err w
        | (None, w) => setLobby c (Some lobby) w
        end
    end.

Definition handleSetReady (c : Client) (payload : any) (w : World) : World :=
  match MarshalAny payload with
  | inr err => Printf ("marshal error: " +:+ err) w
  | inl data =>
      let p := (UnmarshalSetReady data).1 in
      match lobby w !! c.(id) with
      | Some lobby => call_ lobby (λ l w, setPlayerReady l c p.(Ready) w) w
      | None => w
      end
  end.

Definition handleStartGame (c : Client) (w : World) : World :=
  match lobby w !! c.(id) with
  | Some lobby => (call lobby (λ l w, tryStart l c w) None w).2
  | None => w
  end.

Definition handleMessage (c : Client) (data entropy : bytes) (w : World) : World :=
  match UnmarshalEnvelope data with
  | inr err =>
      let w := Printf ("client " +:+ c.(id) +:+ " invalid json: " +:+ err) w in
      sendError c "invalid message format" w
  | inl env =>
      let w := Printf ("client " +:+ c.(id) +:+ " sent: " +:+ env.(Type_)) w in
      if decide (env.(Type_) = MsgRequestLobbies) then sendLobbyList c w
      else if decide (env.(Type_) = MsgCreateLobby) then handleCreateLobby c env.(Payload) entropy w
      else if decide (env.(Type_) = MsgJoinLobby) then handleJoinLobby c env.(Payload) w
      else if decide (env.(Type_) = MsgLeaveLobby) then handleLeaveLobby c w
      else if decide (env.(Type_) = MsgSetReady) then handleSetReady c env.(Payload) w
      else if decide (env.(Type_) = MsgStartGame) then handleStartGame c w
      else sendError c ("unknown message type: " +:+ env.(Type_)) w
  end.

End Server.

(** * Specification vocabulary and sample inputs *)

(** Two iteration orders: the one of [map_to_list] and its reverse. *)
Definition inOrder : RangeOrder := λ _ _ l, l.
Definition backwards : RangeOrder := λ _ _ l, reverse l.

(** A small codec to run the server on concrete frames: a frame is the
    message type, a space and the payload text; an outgoing envelope is
    written as its type alone. *)
Fixpoint cut (s : string) : string * string :=
  match s with
  | "" => ("", "")
  | String a s' =>
      if Ascii.eqb a " " then ("", s')
      else let '(x, y) := cut s' in (String a x, y)
  end.

Definition sampleJSON : JSON := {|
  any := string;
  Marshal env := inl (list_byte_of_string (Type_ env));
  MarshalAny s := inl (list_byte_of_string s);
  UnmarshalEnvelope data :=
    match string_of_list_byte data with
    | "" => inr "unexpected end of JSON input"
    | s => let '(t, p) := cut s in inl (mkEnvelope t p)
    end;
  UnmarshalCreateLobby data := (Build_CreateLobbyPayload (string_of_list_byte data), None);
  UnmarshalJoinLobby data := (Build_JoinLobbyPayload (string_of_list_byte data), None);
  UnmarshalSetReady data :=
    let s := string_of_list_byte data in
    if decide (s = "true") then (Build_SetReadyPayload true, None)
    else if decide (s = "false") then (Build_SetReadyPayload false, None)
    else (Build_SetReadyPayload false, Some "cannot unmarshal into field ready of type bool")
|}.

Definition alice : Client := mkClient "a11ce0" "Player-a11ce0".
Definition bob : Client := mkClient "b0b000" "Player-b0b000".
Definition carol : Client := mkClient "ca401f" "Player-ca401f".
Definition dave : Client := mkClient "da7e00" "Player-da7e00".
Definition erin : Client := mkClient "e4100a" "Player-e4100a".

(** A lobby in [waiting] with the given players, none ready (the sources
    never assign [state]). *)
Definition waitingLobby (host : Client) (others : list Client) : Lobby :=
  let l := set_state waiting (NewLobby "10bb1e5" "Alpha" host) in
  foldl (λ l c, set_ready (<[id c := false]> (ready l))
                  (set_players (<[id c := c]> (players l)) l)) l others.

(** Sequences of operations on one lobby. *)
Inductive Op := Add (c : Client) | Remove (c : Client).

Definition step `{!JSON} (ord : RangeOrder) (lw : Lobby * World) (o : Op) : Lobby * World :=
  match o with
  | Add c => let '(_, l, w) := addPlayer ord lw.1 c lw.2 in (l, w)
  | Remove c => removePlayer ord lw.1 c lw.2
  end.

(** The lobby and the world after each operation of the sequence. *)
Fixpoint trace `{!JSON} (ord : RangeOrder) (lw : Lobby * World) (ops : list Op)
  : list (Lobby * World) :=
  match ops with
  | [] => []
  | o :: ops => step ord lw o :: trace ord (step ord lw o) ops
  end.

Definition ready_in_players (l : Lobby) : Prop := dom (ready l) ⊆ dom (players l).

(** Every player is filed under its own id, as [NewLobby] and [addPlayer]
    file them. *)
Definition keyed (m : gmap string Client) : Prop :=
  ∀ k c, m !! k = Some c → id c = k.

(** What one [sendEnvelope] of [data] does to the channel of [cid]. *)
Definition delivered (w : World) (data : bytes) (cid : string) : list bytes :=
  if decide (length (queue w cid) < sendCap)%nat
  then (queue w cid ++ [data])%list else queue w cid.

Definition everyReady (l : Lobby) : Prop :=
  ∀ k, is_Some (players l !! k) → ready l !! k = Some true.

(** The message types a client may send. *)
Definition clientKinds : list MessageType :=
  [MsgRequestLobbies; MsgCreateLobby; MsgJoinLobby; MsgLeaveLobby; MsgSetReady; MsgStartGame].

(** * Vocabulary of the further properties *)

(** The host is a player whenever there are players. *)
Definition host_in_players (l : Lobby) : Prop :=
  players l ≠ ∅ → is_Some (players l !! hostID l).

(** Channels only grow, at their end. *)
Definition grows (w w' : World) : Prop :=
  ∀ cid, ∃ rest, queue w' cid = (queue w cid ++ rest)%list.

(** No channel holds more than its capacity. *)
Definition within_capacity (w : World) : Prop :=
  ∀ cid, (length (queue w cid) ≤ sendCap)%nat.

(** A step that sends to the client [c] only and touches nothing else. *)
Definition sends_to (c : Client) (f : World → World) : Prop :=
  ∀ w, grows w (f w) ∧ (within_capacity w → within_capacity (f w)) ∧
       (∀ cid, cid ≠ id c → queue (f w) cid = queue w cid) ∧
       lobbies (f w) = lobbies w ∧ heap (f w) = heap w ∧ lobby (f w) = lobby w.

(** From [w] to [w'] no queued message was removed or reordered and no
    channel was filled beyond its capacity. *)
Definition queues_kept (w w' : World) : Prop :=
  grows w w' ∧ (within_capacity w → within_capacity w').

(** The clients' lobby fields, the players of the lobbies and the hub's
    directory agree: a client whose field points to a lobby is a player
    of it; a player of a lobby has its field pointing to that lobby (so
    nobody is a player of two lobbies); the directory files every lobby
    under its own id and holds no lobby without players. *)
Definition consistent (w : World) : Prop :=
  (∀ cid p, lobby w !! cid = Some p →
     ∃ l, heap w !! p = Some l ∧ is_Some (players l !! cid)) ∧
  (∀ p l cid, heap w !! p = Some l → is_Some (players l !! cid) →
     lobby w !! cid = Some p) ∧
  (∀ lid p, lobbies w !! lid = Some p →
     ∃ l, heap w !! p = Some l ∧ l_id l = lid ∧ players l ≠ ∅).

(** The frames the server handles one after the other, each with its
    sender and the random bytes its handler draws: the read pumps of the
    clients, interleaved frame by frame. *)
Definition serve `{!JSON} (ord : RangeOrder) (w : World) (frames : list (Client * bytes * bytes))
  : World :=
  foldl (λ w f, handleMessage ord f.1.1 f.1.2 f.2 w) w frames.

(** A frame that is neither set_ready nor start_game, the two message
    types whose Lobby methods are not in the repository. *)
Definition handled_in_full `{!JSON} (data : bytes) : Prop :=
  ∀ env, UnmarshalEnvelope data = inl env →
    Type_ env ≠ MsgSetReady ∧ Type_ env ≠ MsgStartGame.

(** The value of a hex digit, 0 for any other character. *)
Definition nibble (a : ascii) : N :=
  match list_find (λ d, d = a) hexdigits with
  | Some (i, _) => N.of_nat i
  | None => 0%N
  end.

(** ** hub.go: the registry of clients and [Hub.Run]

    [Hub.clients] and the set of clients whose [send] channel was closed,
    beside the world.  [Run] handles one request of its two channels at a
    time; [close] of a channel that is closed already panics ([None]).
    A client is its id, so a client that is registered again is the same
    client with the same channel. *)

From stdpp Require pretty.

Record HubState := mkHub {
  world : World;
  clients : gmap string Client;
  closed : gset string
}.

Definition NewHub : HubState := mkHub NewWorld ∅ ∅.

Definition register (c : Client) (h : HubState) : HubState :=
  let cs := <[c.(id) := c]> (clients h) in
  mkHub
    (Printf ("client registered: " +:+ c.(id) +:+ " (total: " +:+ pretty.pretty (size cs) +:+ ")")
       (world h))
    cs (closed h).

Definition unregister `{!JSON} (ord : RangeOrder) (c : Client) (h : HubState)
  : option HubState :=
  match clients h !! c.(id) with
  | Some _ =>
      let w := handleLeaveLobby ord c (world h) in
      if decide (c.(id) ∈ closed h) then None
      else
        let cs := delete c.(id) (clients h) in
        Some (mkHub
                (Printf ("client unregistered: " +:+ c.(id) +:+ " (total: "
                         +:+ pretty.pretty (size cs) +:+ ")") w)
                cs ({[ c.(id) ]} ∪ closed h))
  | None => Some h
  end.

Inductive HubEvent := Register (c : Client) | Unregister (c : Client).

Fixpoint Run `{!JSON} (ord : RangeOrder) (h : HubState) (events : list HubEvent)
  : option HubState :=
  match events with
  | [] => Some h
  | Register c :: events => Run ord (register c h) events
  | Unregister c :: events =>
      match unregister ord c h with
      | Some h => Run ord h events
      | None => None
      end
  end.

(** The ids of the clients a sequence of requests registers. *)
Definition registrations (events : list HubEvent) : list string :=
  omap (λ e, match e with Register c => Some c.(id) | Unregister _ => None end) events.

(** * Properties *)

Lemma inOrder_is_order : is_order inOrder.
Proof. by intros k A l. Qed.

Lemma backwards_is_order : is_order backwards.
Proof. intros k A l. apply reverse_Permutation. Qed.

(** ** Channels *)

Section Channels.
Context `{!JSON}.

Lemma sendEnvelope_other c env w cid :
  cid ≠ id c → queue (sendEnvelope c env w) cid = queue w cid.
Proof.
  intros Hne. unfold sendEnvelope.
  destruct (Marshal env) as [data|err]; [|done].
  case_decide; [|done].
  unfold queue; simpl. by rewrite lookup_insert_ne.
Qed.

Lemma sendEnvelope_enqueue c env w data :
  Marshal env = inl data → (length (queue w (id c)) < sendCap)%nat →
  sendEnvelope c env w
  = set_send (<[id c := (queue w (id c) ++ [data])%list]> (send w)) w.
Proof.
  intros HM Hlen. unfold sendEnvelope. rewrite HM. by rewrite decide_True.
Qed.

Lemma sendEnvelope_drop c env w data :
  Marshal env = inl data → (sendCap ≤ length (queue w (id c)))%nat →
  sendEnvelope c env w = Printf ("client " +:+ id c +:+ " send buffer full, dropping") w.
Proof.
  intros HM Hlen. unfold sendEnvelope. rewrite HM. rewrite decide_False; [done|lia].
Qed.

End Channels.

(** C9: [sendEnvelope] is a total function of the world (the [select]
    has a [default] branch, so the caller is never suspended).  For an
    envelope that serializes to [data]: with fewer than 64 queued messages
    [data] is appended to the client's channel and nothing is logged; with
    a full channel the channels are all unchanged and the drop is logged.
    No other client's channel is touched in either case. *)
Theorem sendEnvelope_never_blocks `{!JSON} (c : Client) (env : Envelope OutPayload)
    (w : World) (data : bytes) :
  Marshal env = inl data →
  let w' := sendEnvelope c env w in
  ((length (queue w (id c)) < 64)%nat →
     queue w' (id c) = (queue w (id c) ++ [data])%list ∧ log w' = log w) ∧
  ((64 ≤ length (queue w (id c)))%nat →
     send w' = send w ∧
     log w' = (log w ++ ["client " +:+ id c +:+ " send buffer full, dropping"])%list) ∧
  (∀ cid, cid ≠ id c → queue w' cid = queue w cid).
Proof.
  intros HM w'. subst w'. split; [|split].
  - intros Hlen. rewrite (sendEnvelope_enqueue _ _ _ _ HM Hlen).
    unfold queue at 1; simpl. by rewrite lookup_insert_eq.
  - intros Hlen. by rewrite (sendEnvelope_drop _ _ _ _ HM Hlen).
  - intros cid Hne. by apply sendEnvelope_other.
Qed.

Lemma sendEnvelope_never_blocks_witness :
  let env := mkEnvelope MsgError (ErrorPayload "lobby not found") in
  let w := set_send {[ id bob := replicate 64 [] ]} NewWorld in
  @Marshal sampleJSON env = inl (list_byte_of_string "error") ∧
  send (@sendEnvelope sampleJSON bob env w) = send w ∧
  queue (@sendEnvelope sampleJSON alice env w) (id alice) = [list_byte_of_string "error"].
Proof.
  intros env w.
  pose proof (@sendEnvelope_never_blocks sampleJSON bob env w _ eq_refl) as (_ & Hfull & _).
  pose proof (@sendEnvelope_never_blocks sampleJSON alice env w _ eq_refl) as (Hfree & _).
  split; [reflexivity|]. split.
  - apply Hfull. vm_compute. lia.
  - apply Hfree. vm_compute. lia.
Defined.

(** ** Identifiers and display names *)

Lemma EncodeToString_length b : String.length (EncodeToString b) = (2 * length b)%nat.
Proof. induction b as [|x b IH]; simpl; [done|]. rewrite IH. lia. Qed.

Lemma hexdigit_hex n : (n < 16)%N → hexdigit n ∈ hexdigits.
Proof.
  intros Hn. unfold hexdigit.
  apply list_elem_of_In, nth_In. change (length hexdigits) with 16%nat. lia.
Qed.

Lemma EncodeToString_hex b :
  Forall (λ a, a ∈ hexdigits) (list_ascii_of_string (EncodeToString b)).
Proof.
  induction b as [|x b IH]; simpl; [constructor|].
  constructor; [|constructor; [|done]].
  - apply hexdigit_hex. apply N.Div0.div_lt_upper_bound.
    pose proof (Byte.to_N_bounded x). lia.
  - apply hexdigit_hex. apply N.mod_lt. done.
Qed.

Lemma generateID_length entropy : String.length (generateID entropy) = 32%nat.
Proof.
  unfold generateID. rewrite EncodeToString_length, length_take, length_app, length_replicate.
  lia.
Qed.

Lemma substring_prefix n s :
  (n ≤ String.length s)%nat →
  String.length (substring 0 n s) = n ∧ ∃ rest, s = substring 0 n s +:+ rest.
Proof.
  revert s. induction n as [|n IH]; intros s Hn.
  - destruct s; simpl; eauto.
  - destruct s as [|a s]; simpl in *; [lia|].
    destruct (IH s) as [Hlen [rest Hrest]]; [lia|].
    split; [by rewrite Hlen|]. exists rest.
    change (String a s = String a (substring 0 n s +:+ rest)). by f_equal.
Qed.

(** C10: the display name is ["Player-"] followed by exactly the first 6
    characters of the id, for every id of length at least 6; a shorter id
    makes [id[:6]] panic; every id of [generateID] is a string of 32 hex
    digits, so [NewClient] succeeds on it. *)
Theorem NewClient_name :
  (∀ i : string, (6 ≤ String.length i)%nat →
     NewClient i = Some {| id := i; name := "Player-" +:+ substring 0 6 i |} ∧
     String.length (substring 0 6 i) = 6%nat ∧
     ∃ rest, i = substring 0 6 i +:+ rest) ∧
  (∀ i : string, (String.length i < 6)%nat → NewClient i = None) ∧
  (∀ entropy : bytes,
     String.length (generateID entropy) = 32%nat ∧
     Forall (λ a, a ∈ hexdigits) (list_ascii_of_string (generateID entropy)) ∧
     is_Some (NewClient (generateID entropy))).
Proof.
  split; [|split].
  - intros i Hi. split; [|by apply substring_prefix].
    unfold NewClient. by rewrite decide_True.
  - intros i Hi. unfold NewClient. rewrite decide_False; [done|lia].
  - intros entropy. split; [apply generateID_length|]. split.
    + apply EncodeToString_hex.
    + unfold NewClient. rewrite decide_True; [by eexists|].
      rewrite generateID_length. lia.
Qed.

Lemma NewClient_name_witness :
  (6 ≤ String.length "a11ce0ffee")%nat ∧
  NewClient "a11ce0ffee" = Some {| id := "a11ce0ffee"; name := "Player-a11ce0" |} ∧
  NewClient "a11ce" = None ∧
  generateID [x01; xab] = "01ab0000000000000000000000000000".
Proof.
  destruct NewClient_name as (Hname & Hshort & _).
  split; [vm_compute; lia|]. split; [|split].
  - destruct (Hname "a11ce0ffee") as (-> & _); [vm_compute; lia|].
    reflexivity.
  - apply Hshort. vm_compute. lia.
  - reflexivity.
Defined.

(** ** Creating a lobby *)

(** C7: the lobby [createLobby] returns is registered under its id, has
    the host as [hostID] and as only member, not ready; its [state] is the
    zero value of [GameState], the empty string, which is not [waiting]:
    the constructor never assigns the field. *)
Theorem createLobby_state_unset (lobbyName : string) (host : Client) (entropy : bytes)
    (w : World) :
  let p := (createLobby lobbyName host entropy w).1 in
  let w' := (createLobby lobbyName host entropy w).2 in
  ∃ l, heap w' !! p = Some l ∧
       getLobby (l_id l) w' = Some p ∧
       hostID l = id host ∧
       players l = {[ id host := host ]} ∧
       ready l = {[ id host := false ]} ∧
       state l = "" ∧ state l ≠ waiting.
Proof.
  exists (NewLobby (generateID entropy) lobbyName host). simpl.
  split; [|split].
  - rewrite lookup_app_r; [|done]. by rewrite Nat.sub_diag.
  - unfold getLobby; simpl. by rewrite lookup_insert_eq.
  - repeat split; try done.
Qed.

(** ** Joining a lobby *)

Section AddPlayer.
Context `{!JSON} (ord : RangeOrder).

Lemma Lobby_inGame_true l : Lobby_inGame l = true ↔ state l ≠ waiting.
Proof. unfold Lobby_inGame. by rewrite bool_decide_eq_true. Qed.

Lemma Lobby_inGame_false l : Lobby_inGame l = false ↔ state l = waiting.
Proof.
  unfold Lobby_inGame. rewrite bool_decide_eq_false.
  split; [|by intros ->; auto]. intros Hnn. by destruct (decide (state l = waiting)).
Qed.

Lemma addPlayer_error_unchanged l c w e l' w' :
  addPlayer ord l c w = (Some e, l', w') → l' = l ∧ w' = w.
Proof.
  unfold addPlayer. destruct (Lobby_inGame l); [by intros [= _ <- <-]|].
  case_decide; [by intros [= _ <- <-]|].
  case_decide; [by intros [= _ <- <-]|].
  discriminate.
Qed.

End AddPlayer.

(** C1: [addPlayer] fails with GameInProgress when the state is not
    [waiting], with RoomFull when the lobby has 4 or more players, with
    AlreadyMember when the client's id is a key of [players]: the call
    fails exactly when one of the three conditions holds, the error it
    returns is one whose condition holds, and when several hold it is the
    first in this order.  A failed call returns the lobby (players, ready,
    hostID, state) and the world as they were. *)
Theorem addPlayer_failures `{!JSON} (ord : RangeOrder) (l : Lobby) (c : Client) (w : World) :
  (state l ≠ waiting → addPlayer ord l c w = (Some GameInProgress, l, w)) ∧
  (state l = waiting → (4 ≤ size (players l))%nat →
     addPlayer ord l c w = (Some RoomFull, l, w)) ∧
  (state l = waiting → (size (players l) < 4)%nat → is_Some (players l !! id c) →
     addPlayer ord l c w = (Some AlreadyMember, l, w)) ∧
  (state l ≠ waiting ∨ (4 ≤ size (players l))%nat ∨ is_Some (players l !! id c) ↔
     ∃ e, addPlayer ord l c w = (Some e, l, w)) ∧
  (∀ e l' w', addPlayer ord l c w = (Some e, l', w') →
     (e = GameInProgress ∧ state l ≠ waiting ∨
      e = RoomFull ∧ (4 ≤ size (players l))%nat ∨
      e = AlreadyMember ∧ is_Some (players l !! id c)) ∧
     w' = w ∧ l' = l ∧ players l' = players l ∧ ready l' = ready l ∧
     hostID l' = hostID l ∧ state l' = state l).
Proof.
  assert (state l ≠ waiting → addPlayer ord l c w = (Some GameInProgress, l, w)) as H1.
  { intros Hs. unfold addPlayer. apply Lobby_inGame_true in Hs. by rewrite Hs. }
  assert (state l = waiting → (4 ≤ size (players l))%nat →
          addPlayer ord l c w = (Some RoomFull, l, w)) as H2.
  { intros Hs Hn. unfold addPlayer. apply Lobby_inGame_false in Hs. rewrite Hs.
    by rewrite decide_True. }
  assert (state l = waiting → (size (players l) < 4)%nat → is_Some (players l !! id c) →
          addPlayer ord l c w = (Some AlreadyMember, l, w)) as H3.
  { intros Hs Hn Hin. unfold addPlayer. apply Lobby_inGame_false in Hs. rewrite Hs.
    rewrite decide_False; [|unfold maxPlayersPerLobby; lia]. by rewrite decide_True. }
  assert (∀ e l' w', addPlayer ord l c w = (Some e, l', w') →
          e = GameInProgress ∧ state l ≠ waiting ∨
          e = RoomFull ∧ (4 ≤ size (players l))%nat ∨
          e = AlreadyMember ∧ is_Some (players l !! id c)) as H4.
  { intros e l' w'. unfold addPlayer.
    destruct (Lobby_inGame l) eqn:Hs.
    { apply Lobby_inGame_true in Hs. intros [= <- _ _]. by left. }
    case_decide; [intros [= <- _ _]; right; by left|].
    case_decide; [intros [= <- _ _]; right; by right|].
    discriminate. }
  split; [done|]. split; [done|]. split; [done|]. split; [split|].
  - intros Hor. destruct (decide (state l = waiting)) as [Hs|Hs]; [|eauto].
    destruct (decide (4 ≤ size (players l))%nat) as [Hn|Hn]; [eauto|].
    destruct Hor as [?|[?|Hin]]; [done|done|]. exists AlreadyMember. apply H3; [done|lia|done].
  - intros [e He]. destruct (H4 _ _ _ He) as [[_ ?]|[[_ ?]|[_ ?]]]; auto.
  - intros e l' w' Hadd. split; [by eapply H4|].
    apply addPlayer_error_unchanged in Hadd as [-> ->]. done.
Qed.

Lemma addPlayer_failures_witness :
  let playing := set_state inGame (waitingLobby alice []) in
  let full := waitingLobby alice [bob; carol; dave] in
  let two := waitingLobby alice [bob] in
  (state playing ≠ waiting ∧
   @addPlayer sampleJSON inOrder playing bob NewWorld = (Some GameInProgress, playing, NewWorld)) ∧
  (state full = waiting ∧ (4 ≤ size (players full))%nat ∧
   @addPlayer sampleJSON inOrder full erin NewWorld = (Some RoomFull, full, NewWorld)) ∧
  (state two = waiting ∧ (size (players two) < 4)%nat ∧ is_Some (players two !! id bob) ∧
   @addPlayer sampleJSON inOrder two bob NewWorld = (Some AlreadyMember, two, NewWorld)).
Proof.
  intros playing full two.
  assert (state playing ≠ waiting) as Hp by (vm_compute; discriminate).
  assert (4 ≤ size (players full))%nat as Hf by (vm_compute; lia).
  assert (size (players two) < 4)%nat as Ht by (vm_compute; lia).
  assert (is_Some (players two !! id bob)) as Hb by (vm_compute; eauto).
  split; [|split].
  - split; [done|].
    by apply (@addPlayer_failures sampleJSON inOrder playing bob NewWorld).
  - split; [done|]. split; [done|].
    by apply (@addPlayer_failures sampleJSON inOrder full erin NewWorld).
  - split; [done|]. split; [done|]. split; [done|].
    by apply (@addPlayer_failures sampleJSON inOrder two bob NewWorld).
Defined.

(** ** Sequences of operations on one lobby *)

Section Trace.
Context `{!JSON} (ord : RangeOrder).

Lemma NewLobby_ready_in_players lobbyID lobbyName host :
  ready_in_players (NewLobby lobbyID lobbyName host).
Proof. unfold ready_in_players; simpl. set_solver. Qed.

Lemma addPlayer_maps l c w :
  let '(r, l', _) := addPlayer ord l c w in
  (r ≠ None ∧ l' = l) ∨
  (r = None ∧ players l' = <[id c := c]> (players l) ∧ ready l' = <[id c := false]> (ready l) ∧
   hostID l' = hostID l ∧ state l' = state l ∧ l_id l' = l_id l).
Proof.
  unfold addPlayer. destruct (Lobby_inGame l); [by left|].
  case_decide; [by left|]. case_decide; [by left|]. by right.
Qed.

Lemma removePlayer_maps l c w :
  let l' := (removePlayer ord l c w).1 in
  (players l !! id c = None ∧ l' = l) ∨
  (is_Some (players l !! id c) ∧
   players l' = delete (id c) (players l) ∧ ready l' = delete (id c) (ready l) ∧
   state l' = state l ∧ l_id l' = l_id l).
Proof.
  unfold removePlayer. case_decide as Hin.
  - right. split; [done|]. case_decide; [done|].
    case_decide; [|done]. simpl. by destruct (ord _ _ _).
  - left. split; [|done]. by apply eq_None_not_Some.
Qed.

Lemma step_ready_in_players lw o :
  ready_in_players lw.1 → ready_in_players (step ord lw o).1.
Proof.
  destruct lw as [l w]. unfold ready_in_players. simpl. intros Hinv. destruct o as [c|c]; simpl.
  - pose proof (addPlayer_maps l c w) as Hadd.
    destruct (addPlayer ord l c w) as [[r l'] w']. simpl.
    destruct Hadd as [[_ ->]|(_ & -> & -> & _)]; [done|].
    rewrite !dom_insert_L. by apply union_mono_l.
  - destruct (removePlayer_maps l c w) as [[_ ->]|(_ & -> & -> & _)]; [done|].
    rewrite !dom_delete_L. by apply difference_mono_r.
Qed.

End Trace.

(** C2: the lobby a creation returns has the keys of [ready] among the
    keys of [players], and from any lobby that has, whatever its state,
    every sequence of [addPlayer] and [removePlayer] calls (failed ones
    included, under every iteration order) has it after each call. *)
Theorem ready_keys_subset_players `{!JSON} (ord : RangeOrder) :
  (∀ lobbyID lobbyName host w ops,
     Forall (λ lw : Lobby * World, dom (ready lw.1) ⊆ dom (players lw.1))
       ((NewLobby lobbyID lobbyName host, w)
          :: trace ord (NewLobby lobbyID lobbyName host, w) ops)) ∧
  (∀ l w ops, dom (ready l) ⊆ dom (players l) →
     Forall (λ lw : Lobby * World, dom (ready lw.1) ⊆ dom (players lw.1)) (trace ord (l, w) ops)).
Proof.
  assert (∀ lw ops, ready_in_players lw.1 →
            Forall (λ lw : Lobby * World, ready_in_players lw.1) (trace ord lw ops)) as Htrace.
  { intros lw ops. revert lw.
    induction ops as [|o ops IH]; intros lw Hinv; simpl; constructor.
    - by apply step_ready_in_players.
    - apply IH. by apply step_ready_in_players. }
  split.
  - intros lobbyID lobbyName host w ops. constructor.
    + apply NewLobby_ready_in_players.
    + apply Htrace. apply NewLobby_ready_in_players.
  - intros l w ops Hinv. by apply Htrace.
Qed.

Lemma ready_keys_subset_players_witness :
  let l := waitingLobby alice [] in
  let ops := [Add bob; Add carol; Remove alice; Add bob; Remove bob; Remove carol] in
  let tr := @trace sampleJSON inOrder (l, NewWorld) ops in
  dom (ready l) ⊆ dom (players l) ∧
  map (λ lw : Lobby * World, size (players lw.1)) tr = [2; 3; 2; 2; 1; 0]%nat ∧
  Forall (λ lw : Lobby * World, dom (ready lw.1) ⊆ dom (players lw.1)) tr.
Proof.
  intros l ops tr.
  assert (dom (ready l) ⊆ dom (players l)) as Hl by compute_done.
  split; [done|]. split; [compute_done|].
  by apply (@ready_keys_subset_players sampleJSON inOrder).
Defined.

(** ** Leaving a lobby *)

Section RemovePlayer.
Context `{!JSON} (ord : RangeOrder).

Lemma range_head {A} (m : gmap string A) w kv rest :
  is_order ord → (range ord m w).1 = kv :: rest → m !! kv.1 = Some kv.2.
Proof.
  intros Hord Hrange. simpl in Hrange.
  apply elem_of_map_to_list'. rewrite <- (Hord (tick w) _ (map_to_list m)), Hrange.
  left.
Qed.

Lemma range_nonempty {A} (m : gmap string A) w :
  is_order ord → m ≠ ∅ → (range ord m w).1 ≠ [].
Proof.
  intros Hord Hne Hnil. simpl in Hnil.
  pose proof (Hord (tick w) _ (map_to_list m)) as Hp. rewrite Hnil in Hp.
  apply Permutation_nil_l in Hp. symmetry in Hp. by apply map_to_list_empty_iff in Hp.
Qed.

End RemovePlayer.

(** C5: when the client is the only player, [removePlayer] empties the
    lobby, deletes it from the hub (the only other effect is the hub's log
    line), so that [getLobby] with its id finds nothing; no channel
    receives anything and no range loop runs: nothing is broadcast. *)
Theorem removePlayer_last_player `{!JSON} (ord : RangeOrder) (l : Lobby) (c : Client)
    (w : World) :
  dom (players l) = {[ id c ]} →
  let l' := (removePlayer ord l c w).1 in
  let w' := (removePlayer ord l c w).2 in
  players l' = ∅ ∧
  w' = removeLobby (l_id l) w ∧
  getLobby (l_id l) w' = None ∧
  send w' = send w ∧
  tick w' = tick w ∧
  log w' = (log w ++ ["lobby removed: " +:+ l_id l])%list.
Proof.
  intros Hdom.
  assert (is_Some (players l !! id c)) as Hin.
  { apply elem_of_dom. rewrite Hdom. by apply elem_of_singleton. }
  assert (delete (id c) (players l) = ∅) as Hempty.
  { apply dom_empty_iff_L. rewrite dom_delete_L, Hdom. apply difference_diag_L. }
  unfold removePlayer. rewrite decide_True; [|done]. simpl.
  rewrite decide_True; [|by rewrite Hempty, map_size_empty]. simpl.
  repeat split; try done.
  unfold getLobby; simpl. by rewrite lookup_delete_eq.
Qed.

Lemma removePlayer_last_player_witness :
  let l := waitingLobby alice [] in
  let w := set_lobbies {[ l_id l := 0%nat ]} (set_heap [l] NewWorld) in
  dom (players l) = {[ id alice ]} ∧
  getLobby (l_id l) w = Some 0%nat ∧
  getLobby (l_id l) (@removePlayer sampleJSON inOrder l alice w).2 = None ∧
  send (@removePlayer sampleJSON inOrder l alice w).2 = send w.
Proof.
  intros l w.
  assert (dom (players l) = {[ id alice ]}) as Hdom by compute_done.
  split; [done|]. split; [compute_done|].
  destruct (@removePlayer_last_player sampleJSON inOrder l alice w Hdom)
    as (_ & _ & Hget & Hsend & _).
  by split.
Defined.

(** C6, as the code has it: when the host leaves and players remain, the
    new host is one of the remaining players, namely the one the range
    loop over [players] visits first; that is the choice of the iteration
    order, not of the set of remaining players. *)
Theorem removePlayer_new_host `{!JSON} (ord : RangeOrder) (l : Lobby) (c : Client)
    (w : World) :
  is_order ord →
  hostID l = id c →
  is_Some (players l !! id c) →
  delete (id c) (players l) ≠ ∅ →
  let l' := (removePlayer ord l c w).1 in
  players l' = delete (id c) (players l) ∧
  is_Some (players l' !! hostID l') ∧
  hostID l' ≠ id c ∧
  ∃ x rest, ord (tick w) _ (map_to_list (players l')) = (hostID l', x) :: rest.
Proof.
  intros Hord Hhost Hin Hne.
  assert (size (delete (id c) (players l)) ≠ 0)%nat as Hsize.
  { by intros ?%map_size_empty_iff. }
  unfold removePlayer. rewrite decide_True; [|done]. simpl.
  rewrite decide_False; [|done]. simpl. rewrite decide_True; [|done].
  destruct (ord (tick w) _ (map_to_list (delete (id c) (players l)))) as [|[k x] rest] eqn:Hrange.
  { by destruct (range_nonempty ord (delete (id c) (players l)) w Hord Hne). }
  simpl. split; [done|].
  pose proof (range_head ord (delete (id c) (players l)) w (k, x) rest Hord Hrange) as Hk.
  simpl in Hk. split; [by eexists|]. split; [|by eauto].
  intros ->. by rewrite lookup_delete_eq in Hk.
Qed.

Lemma removePlayer_new_host_witness :
  let l := waitingLobby alice [bob; carol] in
  is_order backwards ∧ hostID l = id alice ∧ is_Some (players l !! id alice) ∧
  delete (id alice) (players l) ≠ ∅ ∧
  is_Some (players (@removePlayer sampleJSON backwards l alice NewWorld).1
             !! hostID (@removePlayer sampleJSON backwards l alice NewWorld).1).
Proof.
  intros l.
  assert (is_Some (players l !! id alice)) as Hin by (vm_compute; eauto).
  assert (delete (id alice) (players l) ≠ ∅) as Hne by compute_done.
  split; [apply backwards_is_order|]. split; [reflexivity|]. split; [done|]. split; [done|].
  by apply (@removePlayer_new_host sampleJSON backwards l alice NewWorld
              backwards_is_order eq_refl Hin Hne).
Defined.

(** C6, as the claim has it, fails: two runs of [removePlayer] on the same
    lobby, hence with the same set of remaining players, that differ only
    in the iteration order of the map select different new hosts. *)
Lemma new_host_depends_on_iteration_order :
  let l := waitingLobby alice [bob; carol] in
  let run1 := @removePlayer sampleJSON inOrder l alice NewWorld in
  let run2 := @removePlayer sampleJSON backwards l alice NewWorld in
  is_order inOrder ∧ is_order backwards ∧
  hostID l = id alice ∧
  dom (players run1.1) = {[ id bob; id carol ]} ∧
  dom (players run2.1) = {[ id bob; id carol ]} ∧
  hostID run1.1 = id carol ∧
  hostID run2.1 = id bob ∧
  hostID run1.1 ≠ hostID run2.1.
Proof.
  intros l run1 run2.
  split; [apply inOrder_is_order|]. split; [apply backwards_is_order|].
  repeat split; compute_done.
Qed.

(** ** Broadcasts *)

Section Broadcast.
Context `{!JSON} (ord : RangeOrder).

Lemma keyed_insert m c : keyed m → keyed (<[id c := c]> m).
Proof.
  intros Hm k c'. rewrite lookup_insert. case_decide; [by intros [= <-]|]. apply Hm.
Qed.

Lemma NewLobby_keyed lobbyID lobbyName host : keyed (players (NewLobby lobbyID lobbyName host)).
Proof. simpl. apply (keyed_insert ∅). by intros k c. Qed.

Lemma sendEnvelope_self c env w data :
  Marshal env = inl data → queue (sendEnvelope c env w) (id c) = delivered w data (id c).
Proof.
  intros HM. unfold sendEnvelope, delivered. rewrite HM. case_decide; [|done].
  unfold queue at 1; simpl. by rewrite lookup_insert_eq.
Qed.

Lemma sendEnvelope_suffix c env w cid :
  ∃ rest, queue (sendEnvelope c env w) cid = (queue w cid ++ rest)%list.
Proof.
  destruct (decide (cid = id c)) as [->|Hne].
  - unfold sendEnvelope. destruct (Marshal env) as [data|err].
    + case_decide.
      * exists [data]. unfold queue at 1; simpl. by rewrite lookup_insert_eq.
      * exists []. by rewrite app_nil_r.
    + exists []. by rewrite app_nil_r.
  - exists []. rewrite app_nil_r. by apply sendEnvelope_other.
Qed.

(** Sending one envelope to each of the clients [cs], no client twice. *)
Lemma foldl_sendEnvelope_queue (cs : list (string * Client)) env data w cid :
  Marshal env = inl data →
  NoDup (map (λ kv, id kv.2) cs) →
  queue (foldl (λ w kv, sendEnvelope kv.2 env w) w cs) cid
  = if decide (cid ∈ map (λ kv : string * Client, id kv.2) cs)
    then delivered w data cid else queue w cid.
Proof.
  intros HM. revert w. induction cs as [|[k c] cs IH]; intros w Hnd; cbn [foldl map snd].
  { rewrite decide_False; [done|]. apply not_elem_of_nil. }
  cbn [map snd] in Hnd. apply NoDup_cons in Hnd as [Hc Hnd]. rewrite IH; [|done].
  destruct (decide (cid = id c)) as [->|Hne].
  - rewrite decide_False; [|done]. rewrite decide_True; [|by left].
    by apply sendEnvelope_self.
  - unfold delivered. rewrite (sendEnvelope_other c env w cid Hne).
    destruct (decide (cid ∈ map (λ kv : string * Client, id kv.2) cs)) as [Hin|Hin].
    + rewrite (decide_True (P := cid ∈ id c :: _)); [done|]. by right.
    + rewrite (decide_False (P := cid ∈ id c :: _)); [done|].
      by intros [?|?]%elem_of_cons.
Qed.

Lemma range_keys (m : gmap string Client) w :
  is_order ord → keyed m →
  map (λ kv : string * Client, id kv.2) (range ord m w).1 ≡ₚ map fst (map_to_list m).
Proof.
  intros Hord Hm. simpl.
  etrans; [apply Permutation_map, Hord|].
  erewrite map_ext_in; [done|]. intros [k c] Hin. simpl.
  apply Hm. apply elem_of_map_to_list. by apply list_elem_of_In.
Qed.

(** A broadcast reaches every player of the lobby, once, and nobody
    else. *)
Lemma broadcastUnlocked_queue l env data w cid :
  is_order ord → keyed (players l) → Marshal env = inl data →
  queue (broadcastUnlocked ord l env w) cid
  = if decide (is_Some (players l !! cid)) then delivered w data cid else queue w cid.
Proof.
  intros Hord Hkeyed HM. unfold broadcastUnlocked.
  pose proof (range_keys (players l) w Hord Hkeyed) as Hkeys.
  destruct (range ord (players l) w) as [kvs w1] eqn:Hrange.
  assert (w1 = set_tick (S (tick w)) w) as -> by (by injection Hrange).
  simpl in Hkeys.
  rewrite (foldl_sendEnvelope_queue kvs env data _ cid HM).
  2:{ rewrite Hkeys. apply NoDup_fst_map_to_list. }
  assert (cid ∈ map (λ kv : string * Client, id kv.2) kvs ↔ is_Some (players l !! cid)) as Hiff.
  { rewrite Hkeys.
    change (map fst (map_to_list (players l))) with ((map_to_list (players l)).*1).
    rewrite list_elem_of_fmap. split.
    - intros [[k c] [-> Hin]]. apply elem_of_map_to_list in Hin. simpl. by eexists.
    - intros [c Hc]. exists (cid, c). split; [done|]. by apply elem_of_map_to_list. }
  destruct (decide (is_Some (players l !! cid))) as [Hin|Hin].
  - rewrite decide_True; [done|]. by apply Hiff.
  - rewrite decide_False; [done|]. by rewrite Hiff.
Qed.

End Broadcast.

Section Snapshot.
Context `{!JSON} (ord : RangeOrder).

Lemma sendStateToClientUnlocked_other l c w cid :
  cid ≠ id c → queue (sendStateToClientUnlocked ord l c w) cid = queue w cid.
Proof. intros Hne. unfold sendStateToClientUnlocked. simpl. by rewrite sendEnvelope_other. Qed.

Lemma sendStateToClientUnlocked_suffix l c w cid :
  ∃ rest, queue (sendStateToClientUnlocked ord l c w) cid = (queue w cid ++ rest)%list.
Proof.
  unfold sendStateToClientUnlocked. simpl.
  apply (sendEnvelope_suffix c _ (set_tick (S (tick w)) w) cid).
Qed.

End Snapshot.

(** C4, as the code has it: a successful [addPlayer] files the client
    under its id in [players] and in [ready] (not ready) and then
    broadcasts the player_joined notice to the players of the lobby, of
    which the joining client is one by then: the notice is queued for the
    others and for the joining client alike, and the snapshot of the lobby
    follows it on the channel of the joining client only. *)
Theorem addPlayer_notice_reaches_joiner `{!JSON} (ord : RangeOrder) (l : Lobby) (c : Client)
    (w : World) (notice : bytes) :
  is_order ord →
  keyed (players l) →
  state l = waiting →
  (size (players l) < 4)%nat →
  players l !! id c = None →
  Marshal (mkEnvelope MsgPlayerJoined
             (PlayerJoinedPayload (mkPlayerInfo (id c) (name c) false false))) = inl notice →
  (length (queue w (id c)) < 64)%nat →
  let r := (addPlayer ord l c w).1.1 in
  let l' := (addPlayer ord l c w).1.2 in
  let w' := (addPlayer ord l c w).2 in
  r = None ∧
  players l' = <[id c := c]> (players l) ∧
  ready l' = <[id c := false]> (ready l) ∧
  (∀ k, k ≠ id c →
     queue w' k = if decide (is_Some (players l !! k)) then delivered w notice k else queue w k) ∧
  (∃ rest, queue w' (id c) = (queue w (id c) ++ notice :: rest)%list).
Proof.
  intros Hord Hkeyed Hstate Hsize Hnew HM Hcap.
  unfold addPlayer. apply Lobby_inGame_false in Hstate. rewrite Hstate.
  rewrite decide_False; [|unfold maxPlayersPerLobby; lia].
  rewrite decide_False; [|by rewrite Hnew; intros [? ?]].
  cbn [fst snd]. split; [done|]. split; [done|]. split; [done|].
  set (l1 := set_ready _ (set_players _ l)).
  assert (keyed (players l1)) as Hkeyed1 by (by apply keyed_insert).
  split.
  - intros k Hk. rewrite sendStateToClientUnlocked_other; [|done].
    rewrite (broadcastUnlocked_queue ord l1 _ notice w k Hord Hkeyed1 HM).
    simpl. rewrite lookup_insert_ne; [done|]. congruence.
  - destruct (sendStateToClientUnlocked_suffix ord l1 c
                (broadcastUnlocked ord l1
                   (mkEnvelope MsgPlayerJoined
                      (PlayerJoinedPayload (mkPlayerInfo (id c) (name c) false false))) w)
                (id c)) as [rest ->].
    rewrite (broadcastUnlocked_queue ord l1 _ notice w (id c) Hord Hkeyed1 HM).
    rewrite decide_True; [|by simpl; rewrite lookup_insert_eq].
    unfold delivered. rewrite decide_True; [|done].
    exists rest. by rewrite <- app_assoc.
Qed.

Lemma keyed_waitingLobby host others : keyed (players (waitingLobby host others)).
Proof.
  unfold waitingLobby.
  assert (keyed (players (set_state waiting (NewLobby "10bb1e5" "Alpha" host)))) as Hl
    by apply NewLobby_keyed.
  revert Hl. generalize (set_state waiting (NewLobby "10bb1e5" "Alpha" host)).
  induction others as [|c cs IH]; intros l Hl; simpl; [done|].
  apply IH. simpl. by apply keyed_insert.
Qed.

Lemma addPlayer_notice_reaches_joiner_witness :
  let l := waitingLobby alice [] in
  let w' := (@addPlayer sampleJSON inOrder l bob NewWorld).2 in
  (is_order inOrder ∧ keyed (players l) ∧ state l = waiting ∧ (size (players l) < 4)%nat ∧
   players l !! id bob = None ∧ (length (queue NewWorld (id bob)) < 64)%nat) ∧
  (∃ rest, queue w' (id bob) = list_byte_of_string "player_joined" :: rest) ∧
  queue w' (id bob) = [list_byte_of_string "player_joined"; list_byte_of_string "lobby_state"] ∧
  queue w' (id alice) = [list_byte_of_string "player_joined"].
Proof.
  intros l w'.
  assert (size (players l) < 4)%nat as Hsize by (vm_compute; lia).
  assert (length (queue NewWorld (id bob)) < 64)%nat as Hcap by (vm_compute; lia).
  split; [|split; [|split]].
  - repeat split; [apply inOrder_is_order|apply keyed_waitingLobby|done|done].
  - by apply (@addPlayer_notice_reaches_joiner sampleJSON inOrder l bob NewWorld
                (list_byte_of_string "player_joined")
                inOrder_is_order (keyed_waitingLobby alice []) eq_refl Hsize eq_refl eq_refl Hcap).
  - vm_compute. reflexivity.
  - vm_compute. reflexivity.
Defined.

(** ** Starting the game *)

Section TryStart.
Context `{!JSON} (ord : RangeOrder).

Lemma allReady_spec l : allReady l = true ↔ everyReady l.
Proof.
  unfold allReady, everyReady. rewrite bool_decide_eq_true. split.
  - intros Hall k [x Hx]. specialize (Hall k x Hx). simpl in Hall.
    by destruct (ready l !! k) as [[]|].
  - intros Hall k x Hx. simpl. by rewrite (Hall k (mk_is_Some _ _ Hx)).
Qed.

Lemma sendError_other c msg w cid : cid ≠ id c → queue (sendError c msg w) cid = queue w cid.
Proof. apply sendEnvelope_other. Qed.

End TryStart.

(** C3: [tryStart] succeeds exactly when the caller is the host, the
    lobby is waiting and every player is ready.  On success only the state
    changes, to [countDown], and game_starting is broadcast: it is queued
    once for every player and for nobody else.  Otherwise the error of the
    first violated condition is sent to the caller, no other channel
    changes and the lobby is as before. *)
Theorem tryStart_iff `{!JSON} (ord : RangeOrder) (l : Lobby) (c : Client) (w : World) :
  let r := (tryStart ord l c w).1.1 in
  let l' := (tryStart ord l c w).1.2 in
  let w' := (tryStart ord l c w).2 in
  (r = None ↔ id c = hostID l ∧ state l = waiting ∧ everyReady l) ∧
  (r = None →
     l' = set_state countDown l ∧
     w' = broadcastUnlocked ord l' (mkEnvelope MsgGameStarting (GameStartingPayload "")) w ∧
     (is_order ord → keyed (players l) →
      ∀ data, Marshal (mkEnvelope MsgGameStarting (GameStartingPayload "")) = inl data →
      ∀ cid, queue w' cid
             = if decide (is_Some (players l !! cid)) then delivered w data cid
               else queue w cid)) ∧
  (id c ≠ hostID l → r = Some NotHost) ∧
  (id c = hostID l → state l ≠ waiting → r = Some GameInProgress) ∧
  (id c = hostID l → state l = waiting → ¬ everyReady l → r = Some NotAllReady) ∧
  (∀ e, r = Some e →
     l' = l ∧ state l' = state l ∧ w' = sendError c e w ∧
     ∀ cid, cid ≠ id c → queue w' cid = queue w cid).
Proof.
  unfold tryStart. rewrite <- allReady_spec.
  destruct (decide (id c ≠ hostID l)) as [Hhost|Hhost]; cbn [fst snd].
  { split; [split; [done|by intros [? _]]|]. split; [done|]. split; [done|].
    split; [done|]. split; [done|]. intros e [= <-]. repeat split; try done.
    intros cid Hne. by apply sendError_other. }
  apply dec_stable in Hhost.
  destruct (decide (state l ≠ waiting)) as [Hstate|Hstate]; cbn [fst snd].
  { split; [split; [done|by intros (_ & ? & _)]|]. split; [done|]. split; [done|].
    split; [done|]. split; [done|]. intros e [= <-]. repeat split; try done.
    intros cid Hne. by apply sendError_other. }
  apply dec_stable in Hstate.
  destruct (allReady l) eqn:Hready; cbn [negb fst snd].
  - split; [done|]. split; [|done].
    intros _. split; [done|]. split; [done|].
    intros Hord Hkeyed data HM cid.
    by rewrite (broadcastUnlocked_queue ord (set_state countDown l) _ data w cid Hord Hkeyed HM).
  - split; [split; [done|by intros (_ & _ & ?)]|]. split; [done|]. split; [done|].
    split; [done|]. split; [done|]. intros e [= <-]. repeat split; try done.
    intros cid Hne. by apply sendError_other.
Qed.

Lemma tryStart_iff_witness :
  let l := set_ready {[ id alice := true; id bob := true ]} (waitingLobby alice [bob]) in
  let byHost := @tryStart sampleJSON inOrder l alice NewWorld in
  let byGuest := @tryStart sampleJSON inOrder l bob NewWorld in
  (id alice = hostID l ∧ state l = waiting ∧ everyReady l) ∧
  byHost.1.1 = None ∧ state byHost.1.2 = countDown ∧
  queue byHost.2 (id alice) = [list_byte_of_string "game_starting"] ∧
  queue byHost.2 (id bob) = [list_byte_of_string "game_starting"] ∧
  byGuest.1.1 = Some NotHost ∧ state byGuest.1.2 = waiting ∧
  queue byGuest.2 (id bob) = [list_byte_of_string "error"] ∧
  queue byGuest.2 (id alice) = [].
Proof.
  intros l byHost byGuest.
  assert (everyReady l) as Hready.
  { apply allReady_spec. compute_done. }
  destruct (@tryStart_iff sampleJSON inOrder l alice NewWorld) as (Hiff & _).
  destruct (@tryStart_iff sampleJSON inOrder l bob NewWorld) as (_ & _ & Hnot & _).
  split; [done|]. split; [by apply Hiff|].
  split; [compute_done|]. split; [compute_done|]. split; [compute_done|].
  split; [apply Hnot; compute_done|]. repeat split; compute_done.
Defined.

(** ** The dispatcher *)

(** C8, as the code has it: a frame that is not an envelope, an envelope
    of an unknown type, and a create_lobby or join_lobby payload that does
    not decode or lacks its field are each answered with one error
    envelope to the sender, and the handler returns.  A set_ready payload
    is never answered with an error: the error of [json.Unmarshal] is
    dropped, and for a client outside any lobby the frame leaves every
    channel as it was, whatever the payload. *)
Theorem handleMessage_malformed `{!JSON} (ord : RangeOrder) (c : Client) (data entropy : bytes)
    (w : World) :
  (∀ err, UnmarshalEnvelope data = inr err →
     handleMessage ord c data entropy w
     = sendError c "invalid message format"
         (Printf ("client " +:+ id c +:+ " invalid json: " +:+ err) w)) ∧
  (∀ env, UnmarshalEnvelope data = inl env → Type_ env ∉ clientKinds →
     handleMessage ord c data entropy w
     = sendError c ("unknown message type: " +:+ Type_ env)
         (Printf ("client " +:+ id c +:+ " sent: " +:+ Type_ env) w)) ∧
  (∀ env, UnmarshalEnvelope data = inl env → Type_ env = MsgCreateLobby →
     (UnmarshalCreateLobby (remarshal (Payload env))).2 ≠ None ∨
     Name (UnmarshalCreateLobby (remarshal (Payload env))).1 = "" →
     handleMessage ord c data entropy w
     = sendError c "invalid lobby name"
         (Printf ("client " +:+ id c +:+ " sent: " +:+ Type_ env) w)) ∧
  (∀ env, UnmarshalEnvelope data = inl env → Type_ env = MsgJoinLobby →
     (UnmarshalJoinLobby (remarshal (Payload env))).2 ≠ None ∨
     LobbyID (UnmarshalJoinLobby (remarshal (Payload env))).1 = "" →
     handleMessage ord c data entropy w
     = sendError c "invalid lobby id"
         (Printf ("client " +:+ id c +:+ " sent: " +:+ Type_ env) w)) ∧
  (∀ env, UnmarshalEnvelope data = inl env → Type_ env = MsgSetReady →
     lobby w !! id c = None →
     send (handleMessage ord c data entropy w) = send w).
Proof.
  unfold handleMessage. split; [|split; [|split; [|split]]].
  - by intros err ->.
  - intros env -> Hkind. unfold clientKinds in Hkind.
    rewrite !not_elem_of_cons in Hkind. destruct Hkind as (?&?&?&?&?&?&_).
    by rewrite !decide_False.
  - intros env -> Hkind Hbad. rewrite Hkind. simpl.
    unfold handleCreateLobby. fold (remarshal (Payload env)).
    destruct (UnmarshalCreateLobby (remarshal (Payload env))) as [p err].
    by rewrite decide_True.
  - intros env -> Hkind Hbad. rewrite Hkind. simpl.
    unfold handleJoinLobby. fold (remarshal (Payload env)).
    destruct (UnmarshalJoinLobby (remarshal (Payload env))) as [p err].
    by rewrite decide_True.
  - intros env -> Hkind Hnil. rewrite Hkind. simpl.
    unfold handleSetReady. destruct (MarshalAny (Payload env)); [|done].
    simpl. by rewrite Hnil.
Qed.

Lemma handleMessage_malformed_witness :
  let frame := list_byte_of_string "set_ready yes" in
  let w' := @handleMessage sampleJSON inOrder alice frame [] NewWorld in
  let bogus := list_byte_of_string "fire 1" in
  let unnamed := list_byte_of_string "create_lobby " in
  (@UnmarshalEnvelope sampleJSON frame = inl (mkEnvelope MsgSetReady "yes") ∧
   (@UnmarshalSetReady sampleJSON (@remarshal sampleJSON "yes")).2 ≠ None ∧
   lobby NewWorld !! id alice = None) ∧
  send w' = send NewWorld ∧
  queue w' (id alice) = [] ∧
  queue (@handleMessage sampleJSON inOrder alice bogus [] NewWorld) (id alice)
  = [list_byte_of_string "error"] ∧
  queue (@handleMessage sampleJSON inOrder alice unnamed [] NewWorld) (id alice)
  = [list_byte_of_string "error"].
Proof.
  intros frame w' bogus unnamed.
  assert (@UnmarshalEnvelope sampleJSON frame = inl (mkEnvelope MsgSetReady "yes")) as Henv
    by (vm_compute; reflexivity).
  destruct (@handleMessage_malformed sampleJSON inOrder alice frame [] NewWorld)
    as (_ & _ & _ & _ & Hready).
  assert (send w' = send NewWorld) as Hsend by (by apply (Hready _ Henv)).
  split; [split; [done|split; [compute_done|done]]|].
  split; [done|]. split; [unfold queue; by rewrite Hsend|].
  split; vm_compute; reflexivity.
Defined.

(** * Further properties of the code *)

(** ** Invariants of a lobby *)

Section LobbyInvariants.
Context `{!JSON} (ord : RangeOrder).

Lemma trace_invariant (P : Lobby → Prop) :
  (∀ lw o, P lw.1 → P (step ord lw o).1) →
  ∀ ops lw, P lw.1 → Forall (λ lw : Lobby * World, P lw.1) (trace ord lw ops).
Proof.
  intros Hstep ops. induction ops as [|o ops IH]; intros lw HP; simpl; constructor.
  - by apply Hstep.
  - apply IH. by apply Hstep.
Qed.

Lemma step_size lw o :
  (size (players lw.1) ≤ maxPlayersPerLobby)%nat →
  (size (players (step ord lw o).1) ≤ maxPlayersPerLobby)%nat.
Proof.
  destruct lw as [l w]. simpl. intros Hsize. destruct o as [c|c]; simpl.
  - unfold addPlayer. destruct (Lobby_inGame l); [done|].
    case_decide as Hfull; [done|]. case_decide as Hin; [done|]. simpl.
    rewrite map_size_insert_None; [lia|]. by apply eq_None_not_Some.
  - destruct (removePlayer_maps ord l c w) as [[_ ->]|(_ & -> & _)]; [done|].
    pose proof (map_size_delete (id c) (players l)) as Hdel.
    destruct (players l !! id c); simpl in Hdel; lia.
Qed.

Lemma step_keyed lw o : keyed (players lw.1) → keyed (players (step ord lw o).1).
Proof.
  destruct lw as [l w]. simpl. intros Hkeyed. destruct o as [c|c]; simpl.
  - pose proof (addPlayer_maps ord l c w) as Hadd.
    destruct (addPlayer ord l c w) as [[r l'] w']. simpl.
    destruct Hadd as [[_ ->]|(_ & -> & _)]; [done|]. by apply keyed_insert.
  - destruct (removePlayer_maps ord l c w) as [[_ ->]|(_ & -> & _)]; [done|].
    intros k c'. rewrite lookup_delete. case_decide; [done|]. apply Hkeyed.
Qed.

Lemma step_same_keys lw o :
  dom (ready lw.1) = dom (players lw.1) →
  dom (ready (step ord lw o).1) = dom (players (step ord lw o).1).
Proof.
  destruct lw as [l w]. simpl. intros Hdom. destruct o as [c|c]; simpl.
  - pose proof (addPlayer_maps ord l c w) as Hadd.
    destruct (addPlayer ord l c w) as [[r l'] w']. simpl.
    destruct Hadd as [[_ ->]|(_ & -> & -> & _)]; [done|].
    by rewrite !dom_insert_L, Hdom.
  - destruct (removePlayer_maps ord l c w) as [[_ ->]|(_ & -> & -> & _)]; [done|].
    by rewrite !dom_delete_L, Hdom.
Qed.

Lemma removePlayer_absent l c w :
  players l !! id c = None → removePlayer ord l c w = (l, w).
Proof.
  intros Hnone. unfold removePlayer. rewrite decide_False; [done|].
  rewrite Hnone. by intros [? ?].
Qed.

Lemma removePlayer_players l c w :
  players (removePlayer ord l c w).1 = delete (id c) (players l) ∧
  ready (removePlayer ord l c w).1 = delete (id c) (ready l) ∨
  players l !! id c = None ∧ removePlayer ord l c w = (l, w).
Proof.
  destruct (removePlayer_maps ord l c w) as [[Hnone _]|(_ & ? & ? & _)]; [|by left].
  right. split; [done|]. by apply removePlayer_absent.
Qed.

Lemma removePlayer_gone l c w : players (removePlayer ord l c w).1 !! id c = None.
Proof.
  destruct (removePlayer_players l c w) as [[-> _]|[Hnone ->]]; [|done].
  apply lookup_delete_eq.
Qed.

End LobbyInvariants.

(** X1: a lobby never has more than [maxPlayersPerLobby] players: the
    one [NewLobby] makes has one, and no sequence of [addPlayer] and
    [removePlayer] calls takes a lobby of at most 4 players beyond 4. *)
Theorem players_never_exceed_capacity `{!JSON} (ord : RangeOrder) (l : Lobby) (w : World)
    (ops : list Op) :
  (size (players l) ≤ 4)%nat →
  Forall (λ lw : Lobby * World, (size (players lw.1) ≤ 4)%nat) (trace ord (l, w) ops) ∧
  ∀ lobbyID lobbyName host, size (players (NewLobby lobbyID lobbyName host)) = 1%nat.
Proof.
  intros Hsize. split.
  - by apply (trace_invariant ord (λ l, size (players l) ≤ maxPlayersPerLobby)%nat
                (step_size ord) ops (l, w)).
  - intros lobbyID lobbyName host. simpl. by rewrite insert_empty, map_size_singleton.
Qed.

Lemma players_never_exceed_capacity_witness :
  let l := waitingLobby alice [bob; carol] in
  let ops := [Add dave; Add erin; Remove bob; Add erin; Add bob] in
  let tr := @trace sampleJSON inOrder (l, NewWorld) ops in
  (size (players l) ≤ 4)%nat ∧
  map (λ lw : Lobby * World, size (players lw.1)) tr = [4; 4; 3; 4; 4]%nat ∧
  Forall (λ lw : Lobby * World, (size (players lw.1) ≤ 4)%nat) tr.
Proof.
  intros l ops tr.
  assert (size (players l) ≤ 4)%nat as Hl by (vm_compute; lia).
  split; [done|]. split; [compute_done|].
  by apply (@players_never_exceed_capacity sampleJSON inOrder l NewWorld ops Hl).
Defined.

(** X2: [ready] and [players] have the same keys, and every player is
    stored under its own id: both hold of the lobby [NewLobby] makes and
    are kept by every sequence of [addPlayer] and [removePlayer] calls. *)
Theorem ready_and_players_same_keys `{!JSON} (ord : RangeOrder) (l : Lobby) (w : World)
    (ops : list Op) :
  dom (ready l) = dom (players l) →
  keyed (players l) →
  Forall (λ lw : Lobby * World,
            dom (ready lw.1) = dom (players lw.1) ∧ keyed (players lw.1))
    (trace ord (l, w) ops) ∧
  ∀ lobbyID lobbyName host,
    dom (ready (NewLobby lobbyID lobbyName host)) = dom (players (NewLobby lobbyID lobbyName host)) ∧
    keyed (players (NewLobby lobbyID lobbyName host)).
Proof.
  intros Hdom Hkeyed. split.
  - apply (trace_invariant ord (λ l, dom (ready l) = dom (players l) ∧ keyed (players l))).
    + intros lw o [? ?]. split; [by apply step_same_keys|by apply step_keyed].
    + done.
  - intros lobbyID lobbyName host. split; [|apply NewLobby_keyed].
    simpl. by rewrite !dom_insert_L, !dom_empty_L.
Qed.

Lemma ready_and_players_same_keys_witness :
  let l := waitingLobby alice [bob] in
  let ops := [Add carol; Remove alice; Remove dave; Add carol] in
  let tr := @trace sampleJSON inOrder (l, NewWorld) ops in
  (dom (ready l) = dom (players l) ∧ keyed (players l)) ∧
  Forall (λ lw : Lobby * World,
            dom (ready lw.1) = dom (players lw.1) ∧ keyed (players lw.1)) tr.
Proof.
  intros l ops tr.
  assert (dom (ready l) = dom (players l)) as Hdom by compute_done.
  split; [split; [done|apply keyed_waitingLobby]|].
  by apply (@ready_and_players_same_keys sampleJSON inOrder l NewWorld ops Hdom
              (keyed_waitingLobby alice [bob])).
Defined.

(** X3: the host stays a player: after an [addPlayer] or a [removePlayer]
    on a lobby whose host is one of its players, either no player is left
    or the host (the old one, or the one [removePlayer] picked) is again
    one of the players. *)
Theorem host_stays_a_player `{!JSON} (ord : RangeOrder) (l : Lobby) (w : World) (o : Op) :
  is_order ord →
  is_Some (players l !! hostID l) →
  let l' := (step ord (l, w) o).1 in
  players l' = ∅ ∨ is_Some (players l' !! hostID l').
Proof.
  intros Hord Hhost. destruct o as [c|c]; simpl.
  - right. pose proof (addPlayer_maps ord l c w) as Hadd.
    destruct (addPlayer ord l c w) as [[r l'] w']. simpl.
    destruct Hadd as [[_ ->]|(_ & -> & _ & -> & _)]; [done|].
    rewrite lookup_insert. by case_decide.
  - unfold removePlayer. case_decide as Hin; [|by right]. simpl.
    case_decide as Hsize; simpl.
    { left. by apply map_size_empty_iff. }
    right. case_decide as Hc.
    + destruct (ord (tick w) _ (map_to_list (delete (id c) (players l))))
        as [|[k x] rest] eqn:Hrange.
      { apply map_size_non_empty_iff in Hsize.
        by destruct (range_nonempty ord (delete (id c) (players l)) w Hord Hsize). }
      simpl. exists x.
      apply (range_head ord (delete (id c) (players l)) w (k, x) rest Hord Hrange).
    + simpl in *. by rewrite lookup_delete_ne.
Qed.

Lemma host_stays_a_player_witness :
  let l := waitingLobby alice [bob; carol] in
  let l' := (@step sampleJSON backwards (l, NewWorld) (Remove alice)).1 in
  (is_order backwards ∧ is_Some (players l !! hostID l)) ∧
  (players l' = ∅ ∨ is_Some (players l' !! hostID l')) ∧
  hostID l' = id bob.
Proof.
  intros l l'.
  assert (is_Some (players l !! hostID l)) as Hhost by (vm_compute; eauto).
  split; [split; [apply backwards_is_order|done]|]. split; [|compute_done].
  by apply (@host_stays_a_player sampleJSON backwards l NewWorld (Remove alice)
              backwards_is_order Hhost).
Defined.

(** X4: [addPlayer] never assigns [hostID].  In particular a client that
    joins a waiting lobby all players of which have left does not become
    its host: the lobby then has one player and a [hostID] that is not a
    player. *)
Theorem addPlayer_keeps_hostID `{!JSON} (ord : RangeOrder) (l : Lobby) (c : Client)
    (w : World) :
  players l = ∅ →
  state l = waiting →
  hostID l ≠ id c →
  let l' := (addPlayer ord l c w).1.2 in
  (addPlayer ord l c w).1.1 = None ∧
  players l' = {[ id c := c ]} ∧
  hostID l' = hostID l ∧
  players l' !! hostID l' = None.
Proof.
  intros Hempty Hstate Hhost. unfold addPlayer.
  apply Lobby_inGame_false in Hstate. rewrite Hstate, Hempty.
  rewrite decide_False; [|rewrite map_size_empty; unfold maxPlayersPerLobby; lia].
  rewrite decide_False; [|rewrite lookup_empty; by intros [? ?]].
  simpl. split; [done|]. split; [by rewrite insert_empty|]. split; [done|].
  by rewrite lookup_insert_ne.
Qed.

Lemma addPlayer_keeps_hostID_witness :
  let l := (@removePlayer sampleJSON inOrder (waitingLobby alice []) alice NewWorld).1 in
  let l' := (@addPlayer sampleJSON inOrder l bob NewWorld).1.2 in
  (players l = ∅ ∧ state l = waiting ∧ hostID l ≠ id bob) ∧
  players l' = {[ id bob := bob ]} ∧ hostID l' = id alice.
Proof.
  intros l l'.
  assert (players l = ∅) as Hempty by compute_done.
  assert (hostID l ≠ id bob) as Hhost by compute_done.
  split; [split; [done|split; [reflexivity|done]]|].
  destruct (@addPlayer_keeps_hostID sampleJSON inOrder l bob NewWorld Hempty eq_refl Hhost)
    as (_ & Hplayers & Hsame & _).
  split; [done|]. transitivity (hostID l); [exact Hsame|compute_done].
Defined.

(** X5: joining and leaving again restores the lobby: after a successful
    [addPlayer] of a client, [removePlayer] of that client gives back the
    [players] and [ready] maps and the state the lobby had, and its host
    too unless the host's id was the client's. *)
Theorem addPlayer_removePlayer_roundtrip `{!JSON} (ord1 ord2 : RangeOrder) (l : Lobby)
    (c : Client) (w w2 : World) :
  (addPlayer ord1 l c w).1.1 = None →
  dom (ready l) ⊆ dom (players l) →
  let l1 := (addPlayer ord1 l c w).1.2 in
  let l2 := (removePlayer ord2 l1 c w2).1 in
  players l2 = players l ∧ ready l2 = ready l ∧ state l2 = state l ∧
  (hostID l ≠ id c → hostID l2 = hostID l).
Proof.
  intros Hok Hsub. unfold addPlayer in *.
  destruct (Lobby_inGame l); [done|].
  case_decide as Hfull; [done|]. case_decide as Hin; [done|]. simpl.
  apply eq_None_not_Some in Hin.
  assert (ready l !! id c = None) as Hr.
  { apply not_elem_of_dom. intros Hc. apply Hsub in Hc. by apply not_elem_of_dom in Hin. }
  unfold removePlayer. simpl. rewrite decide_True; [|by rewrite lookup_insert_eq].
  simpl. rewrite !delete_insert_id; [|done..].
  case_decide; simpl; [done|].
  case_decide as Hc; simpl.
  - destruct (ord2 _ _ _); simpl; repeat split; try done; by intros ?.
  - done.
Qed.

Lemma addPlayer_removePlayer_roundtrip_witness :
  let l := waitingLobby alice [bob] in
  let l1 := (@addPlayer sampleJSON inOrder l carol NewWorld).1.2 in
  let l2 := (@removePlayer sampleJSON backwards l1 carol NewWorld).1 in
  ((@addPlayer sampleJSON inOrder l carol NewWorld).1.1 = None ∧
   dom (ready l) ⊆ dom (players l)) ∧
  size (players l1) = 3%nat ∧
  players l2 = players l ∧ ready l2 = ready l ∧ hostID l2 = hostID l.
Proof.
  intros l l1 l2.
  assert (dom (ready l) ⊆ dom (players l)) as Hsub by compute_done.
  split; [split; [reflexivity|done]|]. split; [compute_done|].
  destruct (@addPlayer_removePlayer_roundtrip sampleJSON inOrder backwards l carol
              NewWorld NewWorld eq_refl Hsub) as (Hp & Hr & _ & Hh).
  split; [done|]. split; [done|]. apply Hh. compute_done.
Defined.

(** X6: [removePlayer] of a client that is not a player changes neither
    the lobby nor the world (nothing is sent or logged, the hub is not
    touched), and [removePlayer] is idempotent: after a first call the
    client is no player any more, so a second call right after it, under
    any iteration order, is such a no-op. *)
Theorem removePlayer_idempotent `{!JSON} (ord1 ord2 : RangeOrder) (l : Lobby) (c : Client)
    (w : World) :
  (players l !! id c = None → removePlayer ord1 l c w = (l, w)) ∧
  players (removePlayer ord1 l c w).1 !! id c = None ∧
  removePlayer ord2 (removePlayer ord1 l c w).1 c (removePlayer ord1 l c w).2
  = removePlayer ord1 l c w.
Proof.
  pose proof (removePlayer_gone ord1 l c w) as Hgone.
  split; [apply removePlayer_absent|]. split; [done|].
  rewrite removePlayer_absent; [by destruct (removePlayer ord1 l c w)|done].
Qed.

(** ** What the channels receive *)

Section Senders.
Context `{!JSON} (ord : RangeOrder).

Lemma grows_refl w : grows w w.
Proof. intros cid. exists []. by rewrite app_nil_r. Qed.

Lemma grows_trans w1 w2 w3 : grows w1 w2 → grows w2 w3 → grows w1 w3.
Proof.
  intros H12 H23 cid. destruct (H12 cid) as [r1 Hr1]. destruct (H23 cid) as [r2 Hr2].
  exists (r1 ++ r2)%list. by rewrite Hr2, Hr1, <- app_assoc.
Qed.

Lemma grows_same_send w w' : send w' = send w → grows w w'.
Proof. intros Hsend cid. exists []. unfold queue. by rewrite Hsend, app_nil_r. Qed.

Lemma within_capacity_same_send w w' :
  send w' = send w → within_capacity w → within_capacity w'.
Proof. intros Hsend Hcap cid. unfold queue. rewrite Hsend. apply Hcap. Qed.

Lemma sendEnvelope_grows c env w : grows w (sendEnvelope c env w).
Proof. intros cid. apply sendEnvelope_suffix. Qed.

Lemma sendEnvelope_within_capacity c env w :
  within_capacity w → within_capacity (sendEnvelope c env w).
Proof.
  intros Hcap cid. unfold sendEnvelope. destruct (Marshal env) as [data|err]; [|apply Hcap].
  case_decide as Hlen; [|apply Hcap].
  unfold queue at 1; simpl. rewrite lookup_insert. case_decide as Hcid.
  - simpl. rewrite length_app. simpl. unfold sendCap in *. lia.
  - apply Hcap.
Qed.

Lemma sendEnvelope_frame c env w :
  lobbies (sendEnvelope c env w) = lobbies w ∧ heap (sendEnvelope c env w) = heap w ∧
  lobby (sendEnvelope c env w) = lobby w ∧ tick (sendEnvelope c env w) = tick w.
Proof. unfold sendEnvelope. destruct (Marshal env); [case_decide|]; done. Qed.

Lemma sendEnvelope_sends_to c env : sends_to c (sendEnvelope c env).
Proof.
  intros w. split; [apply sendEnvelope_grows|]. split; [apply sendEnvelope_within_capacity|].
  split; [by intros cid ?; apply sendEnvelope_other|].
  by destruct (sendEnvelope_frame c env w) as (? & ? & ? & _).
Qed.

Lemma sendStateToClientUnlocked_sends_to l c : sends_to c (sendStateToClientUnlocked ord l c).
Proof.
  intros w. unfold sendStateToClientUnlocked. simpl.
  set (env := mkEnvelope MsgLobbyState _).
  destruct (sendEnvelope_sends_to c env (set_tick (S (tick w)) w)) as (Hg & Hc & Ho & ? & ? & ?).
  split; [exact Hg|]. split; [exact Hc|]. split; [exact Ho|]. done.
Qed.

Lemma foldl_sends_to (f : string * Client → World → World) (kvs : list (string * Client)) w :
  (∀ kv, sends_to kv.2 (f kv)) →
  let w' := foldl (λ w kv, f kv w) w kvs in
  grows w w' ∧ (within_capacity w → within_capacity w') ∧
  (∀ cid, cid ∉ map (λ kv : string * Client, id kv.2) kvs → queue w' cid = queue w cid) ∧
  lobbies w' = lobbies w ∧ heap w' = heap w ∧ lobby w' = lobby w.
Proof.
  intros Hf. revert w. induction kvs as [|kv kvs IH]; intros w; cbn [foldl map].
  { split; [apply grows_refl|]. done. }
  destruct (Hf kv w) as (Hg & Hc & Ho & Hl & Hh & Hb).
  destruct (IH (f kv w)) as (Hg' & Hc' & Ho' & Hl' & Hh' & Hb').
  split; [by eapply grows_trans|]. split; [by auto|].
  split; [|by rewrite Hl', Hh', Hb'].
  intros cid Hcid. apply not_elem_of_cons in Hcid as [? ?].
  rewrite Ho'; [|done]. by apply Ho.
Qed.

Lemma range_ids (m : gmap string Client) w cid :
  is_order ord → keyed m →
  cid ∈ map (λ kv : string * Client, id kv.2) (range ord m w).1 ↔ is_Some (m !! cid).
Proof.
  intros Hord Hkeyed. rewrite (range_keys ord m w Hord Hkeyed).
  change (map fst (map_to_list m)) with ((map_to_list m).*1).
  rewrite list_elem_of_fmap. split.
  - intros [[k c] [-> Hin]]. apply elem_of_map_to_list in Hin. simpl. by eexists.
  - intros [c Hc]. exists (cid, c). split; [done|]. by apply elem_of_map_to_list.
Qed.

(** A loop over the players that sends each of them its own message
    reaches players only. *)
Lemma players_loop (f : string * Client → World → World) l w :
  is_order ord → keyed (players l) →
  (∀ kv, sends_to kv.2 (f kv)) →
  let w' := foldl (λ w kv, f kv w) (range ord (players l) w).2 (range ord (players l) w).1 in
  grows w w' ∧ (within_capacity w → within_capacity w') ∧
  (∀ cid, players l !! cid = None → queue w' cid = queue w cid) ∧
  lobbies w' = lobbies w ∧ heap w' = heap w ∧ lobby w' = lobby w.
Proof.
  intros Hord Hkeyed Hf.
  destruct (foldl_sends_to f (range ord (players l) w).1 (range ord (players l) w).2 Hf)
    as (Hg & Hc & Ho & Hl & Hh & Hb).
  split; [exact Hg|]. split; [exact Hc|]. split; [|done].
  intros cid Hnone. rewrite Ho; [done|].
  rewrite (range_ids (players l) w cid Hord Hkeyed), Hnone. by intros [? ?].
Qed.

Lemma broadcastUnlocked_loop l env w :
  is_order ord → keyed (players l) →
  let w' := broadcastUnlocked ord l env w in
  grows w w' ∧ (within_capacity w → within_capacity w') ∧
  (∀ cid, players l !! cid = None → queue w' cid = queue w cid) ∧
  lobbies w' = lobbies w ∧ heap w' = heap w ∧ lobby w' = lobby w.
Proof.
  intros Hord Hkeyed.
  apply (players_loop (λ kv, sendEnvelope kv.2 env) l w Hord Hkeyed).
  intros kv. apply sendEnvelope_sends_to.
Qed.

Lemma sendStateToAllUnlocked_loop l w :
  is_order ord → keyed (players l) →
  let w' := sendStateToAllUnlocked ord l w in
  grows w w' ∧ (within_capacity w → within_capacity w') ∧
  (∀ cid, players l !! cid = None → queue w' cid = queue w cid) ∧
  lobbies w' = lobbies w ∧ heap w' = heap w ∧ lobby w' = lobby w.
Proof.
  intros Hord Hkeyed.
  apply (players_loop (λ kv, sendStateToClientUnlocked ord l kv.2) l w Hord Hkeyed).
  intros kv. apply sendStateToClientUnlocked_sends_to.
Qed.

End Senders.

(** X7: a broadcast delivers the envelope once to every player of the
    lobby whose channel has room, drops it for a player whose channel is
    full without holding up the others, and reaches nobody who is not a
    player; the hub, the lobbies and the clients' lobby fields are left
    alone. *)
Theorem broadcast_reaches_each_player_once `{!JSON} (ord : RangeOrder) (l : Lobby)
    (env : Envelope OutPayload) (data : bytes) (w : World) :
  is_order ord →
  keyed (players l) →
  Marshal env = inl data →
  let w' := broadcastUnlocked ord l env w in
  (∀ cid, is_Some (players l !! cid) → (length (queue w cid) < 64)%nat →
     queue w' cid = (queue w cid ++ [data])%list) ∧
  (∀ cid, is_Some (players l !! cid) → (64 ≤ length (queue w cid))%nat →
     queue w' cid = queue w cid) ∧
  (∀ cid, players l !! cid = None → queue w' cid = queue w cid) ∧
  lobbies w' = lobbies w ∧ heap w' = heap w ∧ lobby w' = lobby w.
Proof.
  intros Hord Hkeyed HM w'.
  pose proof (λ cid, broadcastUnlocked_queue ord l env data w cid Hord Hkeyed HM) as Hq.
  destruct (broadcastUnlocked_loop ord l env w Hord Hkeyed) as (_ & _ & Ho & Hframe).
  split; [|split; [|split; [exact Ho|exact Hframe]]].
  - intros cid Hin Hlen. subst w'. rewrite Hq, decide_True; [|done].
    unfold delivered. by rewrite decide_True.
  - intros cid Hin Hlen. subst w'. rewrite Hq, decide_True; [|done].
    unfold delivered. rewrite decide_False; [done|]. unfold sendCap. lia.
Qed.

Lemma broadcast_reaches_each_player_once_witness :
  let l := waitingLobby alice [bob; carol] in
  let env := mkEnvelope MsgPlayerLeft (PlayerLeftPayload "da7e00") in
  let w := set_send {[ id bob := replicate 64 [] ]} NewWorld in
  let w' := @broadcastUnlocked sampleJSON backwards l env w in
  (is_order backwards ∧ keyed (players l) ∧
   @Marshal sampleJSON env = inl (list_byte_of_string "player_left")) ∧
  queue w' (id alice) = [list_byte_of_string "player_left"] ∧
  queue w' (id carol) = [list_byte_of_string "player_left"] ∧
  queue w' (id bob) = queue w (id bob) ∧
  queue w' (id dave) = [].
Proof.
  intros l env w w'.
  destruct (@broadcast_reaches_each_player_once sampleJSON backwards l env _ w
              backwards_is_order (keyed_waitingLobby alice [bob; carol]) eq_refl)
    as (Hroom & Hfull & Hother & _).
  split; [split; [apply backwards_is_order|split; [apply keyed_waitingLobby|done]]|].
  split; [apply Hroom; [vm_compute; eauto|vm_compute; lia]|].
  split; [apply Hroom; [vm_compute; eauto|vm_compute; lia]|].
  split; [apply Hfull; [vm_compute; eauto|vm_compute; lia]|].
  apply Hother. compute_done.
Defined.

(** X8: who hears of a departure.  [removePlayer] of a player sends
    nothing to the departing client and nothing to anybody who is not a
    player; every remaining player whose channel has room receives the
    player_left notice first and whatever follows (its snapshot of the
    lobby) after it. *)
Theorem removePlayer_notifies_the_others `{!JSON} (ord : RangeOrder) (l : Lobby) (c : Client)
    (w : World) (notice : bytes) :
  is_order ord →
  keyed (players l) →
  Marshal (mkEnvelope MsgPlayerLeft (PlayerLeftPayload (id c))) = inl notice →
  let w' := (removePlayer ord l c w).2 in
  queue w' (id c) = queue w (id c) ∧
  (∀ cid, players l !! cid = None → queue w' cid = queue w cid) ∧
  (∀ cid, cid ≠ id c → is_Some (players l !! cid) → is_Some (players l !! id c) →
     (length (queue w cid) < 64)%nat →
     ∃ rest, queue w' cid = (queue w cid ++ notice :: rest)%list).
Proof.
  intros Hord Hkeyed HM. unfold removePlayer.
  case_decide as Hin; cbn [snd]; [|split; [done|split; [done|by intros cid _ _ ?]]].
  set (l1 := set_ready _ (set_players _ l)).
  assert (keyed (players l1)) as Hkeyed1.
  { intros k c'. simpl. rewrite lookup_delete. case_decide; [done|]. apply Hkeyed. }
  case_decide as Hsize; cbn [snd].
  { split; [done|]. split; [done|]. intros cid Hne [x Hx] _ _. exfalso.
    apply map_size_empty_iff in Hsize. simpl in Hsize.
    assert (delete (id c) (players l) !! cid = Some x) as Hdel by (by rewrite lookup_delete_ne).
    by rewrite Hsize, lookup_empty in Hdel. }
  (* the world and the lobby after the new host is picked *)
  set (lw := if decide (hostID l1 = id c) then _ else (l1, w)).
  assert (players lw.1 = players l1 ∧ grows w lw.2 ∧ send lw.2 = send w) as (Hpl & _ & Hsend).
  { subst lw. case_decide; [|by split; [|split; [apply grows_refl|]]].
    simpl. destruct (ord _ _ _); simpl; by split; [|split; [apply grows_same_send|]]. }
  destruct lw as [l2 w2]. simpl in Hpl, Hsend. cbn [snd].
  assert (keyed (players l2)) as Hkeyed2 by (by rewrite Hpl).
  set (env := mkEnvelope MsgPlayerLeft (PlayerLeftPayload (id c))).
  destruct (sendStateToAllUnlocked_loop ord l2 (broadcastUnlocked ord l2 env w2) Hord Hkeyed2)
    as (Hg & _ & Ho & _).
  destruct (broadcastUnlocked_loop ord l2 env w2 Hord Hkeyed2) as (_ & _ & Hob & _).
  assert (∀ cid, queue w2 cid = queue w cid) as Hw2.
  { intros cid. unfold queue. by rewrite Hsend. }
  assert (∀ cid, players l2 !! cid = None →
            queue (sendStateToAllUnlocked ord l2 (broadcastUnlocked ord l2 env w2)) cid
            = queue w cid) as Hnone.
  { intros cid Hcid. by rewrite Ho, Hob, Hw2. }
  split; [|split].
  - apply Hnone. rewrite Hpl. simpl. apply lookup_delete_eq.
  - intros cid Hcid. apply Hnone. rewrite Hpl. simpl.
    rewrite lookup_delete. by case_decide.
  - intros cid Hne Hcid _ Hlen. destruct (Hg cid) as [rest ->].
    rewrite (broadcastUnlocked_queue ord l2 env notice w2 cid Hord Hkeyed2 HM).
    rewrite decide_True; [|by rewrite Hpl; simpl; rewrite lookup_delete_ne].
    unfold delivered. rewrite Hw2, decide_True; [|done].
    exists rest. by rewrite <- app_assoc.
Qed.

Lemma removePlayer_notifies_the_others_witness :
  let l := waitingLobby alice [bob; carol] in
  let w' := (@removePlayer sampleJSON inOrder l bob NewWorld).2 in
  (is_order inOrder ∧ keyed (players l) ∧
   @Marshal sampleJSON (mkEnvelope MsgPlayerLeft (PlayerLeftPayload (id bob)))
   = inl (list_byte_of_string "player_left")) ∧
  queue w' (id bob) = [] ∧
  queue w' (id alice) = [list_byte_of_string "player_left"; list_byte_of_string "lobby_state"] ∧
  queue w' (id carol) = [list_byte_of_string "player_left"; list_byte_of_string "lobby_state"].
Proof.
  intros l w'.
  destruct (@removePlayer_notifies_the_others sampleJSON inOrder l bob NewWorld _
              inOrder_is_order (keyed_waitingLobby alice [bob; carol]) eq_refl)
    as (Hleaver & _ & _).
  split; [split; [apply inOrder_is_order|split; [apply keyed_waitingLobby|done]]|].
  split; [exact Hleaver|]. split; compute_done.
Defined.

(** ** The channels under the dispatcher *)

Section QueuesKept.
Context `{!JSON} (ord : RangeOrder).

Lemma queues_kept_refl w : queues_kept w w.
Proof. split; [apply grows_refl|done]. Qed.

Lemma queues_kept_trans w1 w2 w3 : queues_kept w1 w2 → queues_kept w2 w3 → queues_kept w1 w3.
Proof. intros [? ?] [? ?]. split; [by eapply grows_trans|auto]. Qed.

Lemma queues_kept_same_send w w' : send w' = send w → queues_kept w w'.
Proof. intros Hs. split; [by apply grows_same_send|by apply within_capacity_same_send]. Qed.

Lemma sendEnvelope_kept c env w : queues_kept w (sendEnvelope c env w).
Proof. split; [apply sendEnvelope_grows|apply sendEnvelope_within_capacity]. Qed.

Lemma broadcastUnlocked_kept l env w : queues_kept w (broadcastUnlocked ord l env w).
Proof.
  unfold broadcastUnlocked. simpl.
  destruct (foldl_sends_to (λ kv, sendEnvelope kv.2 env)
              (ord (tick w) _ (map_to_list (players l))) (set_tick (S (tick w)) w))
    as (Hg & Hc & _); [intros kv; apply sendEnvelope_sends_to|].
  by split.
Qed.

Lemma sendStateToClientUnlocked_kept l c w :
  queues_kept w (sendStateToClientUnlocked ord l c w).
Proof. destruct (sendStateToClientUnlocked_sends_to ord l c w) as (? & ? & _). by split. Qed.

Lemma sendStateToAllUnlocked_kept l w : queues_kept w (sendStateToAllUnlocked ord l w).
Proof.
  unfold sendStateToAllUnlocked. simpl.
  destruct (foldl_sends_to (λ kv, sendStateToClientUnlocked ord l kv.2)
              (ord (tick w) _ (map_to_list (players l))) (set_tick (S (tick w)) w))
    as (Hg & Hc & _); [intros kv; apply sendStateToClientUnlocked_sends_to|].
  by split.
Qed.

Lemma addPlayer_kept l c w : queues_kept w (addPlayer ord l c w).2.
Proof.
  unfold addPlayer. destruct (Lobby_inGame l); [apply queues_kept_refl|].
  case_decide; [apply queues_kept_refl|]. case_decide; [apply queues_kept_refl|].
  cbn [snd]. eapply queues_kept_trans; [apply broadcastUnlocked_kept|].
  apply sendStateToClientUnlocked_kept.
Qed.

Lemma removePlayer_kept l c w : queues_kept w (removePlayer ord l c w).2.
Proof.
  unfold removePlayer. case_decide; [|apply queues_kept_refl].
  case_decide; cbn [snd]; [by apply queues_kept_same_send|].
  set (l1 := set_ready _ (set_players _ l)).
  set (lw := if decide (hostID l1 = id c) then _ else (l1, w)).
  assert (queues_kept w lw.2) as Hlw.
  { subst lw. case_decide; [|apply queues_kept_refl].
    simpl. destruct (ord _ _ _); by apply queues_kept_same_send. }
  destruct lw as [l2 w2]. cbn [snd] in *.
  eapply queues_kept_trans; [exact Hlw|].
  eapply queues_kept_trans; [apply broadcastUnlocked_kept|].
  apply sendStateToAllUnlocked_kept.
Qed.

Lemma call_kept {R} p (m : Lobby → World → R * Lobby * World) dflt w :
  (∀ l w, queues_kept w (m l w).2) → queues_kept w (call p m dflt w).2.
Proof.
  intros Hm. unfold call. destruct (heap w !! p) as [l|]; [|apply queues_kept_refl].
  specialize (Hm l w). destruct (m l w) as [[r l'] w']. cbn [snd] in *.
  eapply queues_kept_trans; [exact Hm|]. by apply queues_kept_same_send.
Qed.

Lemma call__kept p (m : Lobby → World → Lobby * World) w :
  (∀ l w, queues_kept w (m l w).2) → queues_kept w (call_ p m w).
Proof.
  intros Hm. unfold call_. apply call_kept. intros l w0.
  specialize (Hm l w0). by destruct (m l w0).
Qed.

Lemma handleLeaveLobby_kept c w : queues_kept w (handleLeaveLobby ord c w).
Proof.
  unfold handleLeaveLobby. destruct (lobby w !! id c) as [p|].
  - eapply queues_kept_trans; [|apply call__kept; intros; apply removePlayer_kept].
    by apply queues_kept_same_send.
  - by apply queues_kept_same_send.
Qed.

Lemma handleCreateLobby_kept c payload entropy w :
  queues_kept w (handleCreateLobby ord c payload entropy w).
Proof.
  unfold handleCreateLobby. destruct (UnmarshalCreateLobby _) as [p err].
  case_decide; [apply sendEnvelope_kept|].
  eapply queues_kept_trans; [apply handleLeaveLobby_kept|]. simpl.
  eapply queues_kept_trans; [|apply call__kept; intros; apply sendStateToAllUnlocked_kept].
  by apply queues_kept_same_send.
Qed.

Lemma handleJoinLobby_kept c payload w : queues_kept w (handleJoinLobby ord c payload w).
Proof.
  unfold handleJoinLobby. destruct (UnmarshalJoinLobby _) as [p err].
  case_decide; [apply sendEnvelope_kept|].
  eapply queues_kept_trans; [apply handleLeaveLobby_kept|].
  destruct (getLobby _ _) as [q|]; [|apply sendEnvelope_kept].
  pose proof (call_kept q (λ l w, addPlayer ord l c w) None (handleLeaveLobby ord c w)
                (λ l w, addPlayer_kept l c w)) as Hcall.
  destruct (call q _ None _) as [[e|] w1]; cbn [snd] in Hcall.
  - eapply queues_kept_trans; [exact Hcall|apply sendEnvelope_kept].
  - eapply queues_kept_trans; [exact Hcall|]. by apply queues_kept_same_send.
Qed.

Lemma sendLobbyList_kept c w : queues_kept w (sendLobbyList ord c w).
Proof.
  unfold sendLobbyList. simpl.
  eapply queues_kept_trans; [|apply sendEnvelope_kept]. by apply queues_kept_same_send.
Qed.

End QueuesKept.

(** X9: the dispatcher, [addPlayer] and [removePlayer] only ever append
    to channels: whatever a frame other than set_ready and start_game
    (their Lobby methods are not in the repository) makes the server do,
    every message that was queued for any client is still queued, in the
    same order and before the new ones, and if no channel held more than
    64 messages none does afterwards. *)
Theorem queues_only_grow `{!JSON} (ord : RangeOrder) (c : Client) (data entropy : bytes)
    (w : World) :
  (∀ env, UnmarshalEnvelope data = inl env →
     Type_ env ≠ MsgSetReady ∧ Type_ env ≠ MsgStartGame) →
  let w' := handleMessage ord c data entropy w in
  (∀ cid, ∃ rest, queue w' cid = (queue w cid ++ rest)%list) ∧
  ((∀ cid, (length (queue w cid) ≤ 64)%nat) → ∀ cid, (length (queue w' cid) ≤ 64)%nat) ∧
  (∀ l, queues_kept w (addPlayer ord l c w).2 ∧ queues_kept w (removePlayer ord l c w).2).
Proof.
  intros Hkind.
  assert (queues_kept w (handleMessage ord c data entropy w)) as [Hg Hc].
  { unfold handleMessage. destruct (UnmarshalEnvelope data) as [env|err].
    - destruct (Hkind env eq_refl) as [Hready Hstart].
      set (w1 := Printf _ w).
      assert (queues_kept w w1) as Hw1 by (by apply queues_kept_same_send).
      eapply queues_kept_trans; [exact Hw1|].
      case_decide; [apply sendLobbyList_kept|].
      case_decide; [apply handleCreateLobby_kept|].
      case_decide; [apply handleJoinLobby_kept|].
      case_decide; [apply handleLeaveLobby_kept|].
      case_decide; [done|]. case_decide; [done|].
      apply sendEnvelope_kept.
    - eapply queues_kept_trans; [|apply sendEnvelope_kept]. by apply queues_kept_same_send. }
  split; [exact Hg|]. split; [exact Hc|].
  intros l. split; [apply addPlayer_kept|apply removePlayer_kept].
Qed.

Lemma queues_only_grow_witness :
  let frame := list_byte_of_string "create_lobby Alpha" in
  let w := set_send {[ id alice := [list_byte_of_string "lobby_list"] ]} NewWorld in
  let w' := @handleMessage sampleJSON inOrder alice frame [] w in
  (∀ env, @UnmarshalEnvelope sampleJSON frame = inl env →
     Type_ env ≠ MsgSetReady ∧ Type_ env ≠ MsgStartGame) ∧
  queue w' (id alice) = [list_byte_of_string "lobby_list"; list_byte_of_string "lobby_state"] ∧
  (∃ rest, queue w' (id alice) = (queue w (id alice) ++ rest)%list).
Proof.
  intros frame w w'.
  assert (∀ env, @UnmarshalEnvelope sampleJSON frame = inl env →
            Type_ env ≠ MsgSetReady ∧ Type_ env ≠ MsgStartGame) as Hkind.
  { intros env Henv. vm_compute in Henv. injection Henv as <-. by split. }
  split; [exact Hkind|]. split; [compute_done|].
  destruct (@queues_only_grow sampleJSON inOrder alice frame [] w Hkind) as (Hgrows & _).
  exact (Hgrows (id alice)).
Defined.

(** ** The snapshot of a lobby *)

(** X10: the lobby_state envelope [sendStateToClientUnlocked] sends lists
    every player of the lobby exactly once, in the order of the range
    loop, each with its own name, its ready flag ([false] when [ready] has
    no entry) and [IsHost] exactly for the id that is [hostID]; it tells
    the receiver [YouAreHost] exactly when the receiver's id is [hostID],
    and it is sent to the receiver only. *)
Theorem snapshot_lists_every_player `{!JSON} (ord : RangeOrder) (l : Lobby) (c : Client)
    (w : World) :
  is_order ord →
  ∃ ps,
    sendStateToClientUnlocked ord l c w
    = sendEnvelope c
        (mkEnvelope MsgLobbyState
           (OfLobbyState (mkLobbyState (l_id l) (l_name l) ps (bool_decide (id c = hostID l)))))
        (set_tick (S (tick w)) w) ∧
    length ps = size (players l) ∧
    NoDup (map PI_ID ps) ∧
    (∀ k, k ∈ map PI_ID ps ↔ is_Some (players l !! k)) ∧
    (∀ p, p ∈ ps →
       ∃ cl, players l !! PI_ID p = Some cl ∧
             PI_Name p = name cl ∧
             PI_Ready p = default false (ready l !! PI_ID p) ∧
             IsHost p = bool_decide (PI_ID p = hostID l)).
Proof.
  intros Hord. unfold sendStateToClientUnlocked. simpl.
  pose proof (Hord (tick w) _ (map_to_list (players l))) as Hperm.
  set (kvs := ord (tick w) _ (map_to_list (players l))) in *.
  eexists. split; [reflexivity|].
  assert (map PI_ID
            (map (λ kv : string * Client,
                    mkPlayerInfo kv.1 (name kv.2) (default false (ready l !! kv.1))
                      (bool_decide (kv.1 = hostID l))) kvs) = kvs.*1) as Hids.
  { rewrite map_map. simpl. done. }
  split; [|split; [|split]].
  - rewrite length_map, Hperm. apply length_map_to_list.
  - rewrite Hids, Hperm. apply NoDup_fst_map_to_list.
  - intros k. rewrite Hids, Hperm, list_elem_of_fmap. split.
    + intros [[k' cl] [-> Hin]]. apply elem_of_map_to_list in Hin. by eexists.
    + intros [cl Hcl]. exists (k, cl). split; [done|]. by apply elem_of_map_to_list.
  - intros p Hp. apply list_elem_of_In, in_map_iff in Hp as [[k cl] [<- Hin]].
    apply list_elem_of_In in Hin. rewrite Hperm in Hin. apply elem_of_map_to_list in Hin.
    exists cl. by simpl.
Qed.

Lemma snapshot_lists_every_player_witness :
  let l := set_ready {[ id alice := true ]} (waitingLobby alice [bob]) in
  is_order backwards ∧
  ∃ ps,
    @sendStateToClientUnlocked sampleJSON backwards l bob NewWorld
    = @sendEnvelope sampleJSON bob
        (mkEnvelope MsgLobbyState (OfLobbyState (mkLobbyState (l_id l) (l_name l) ps false)))
        (set_tick 1 NewWorld) ∧
    length ps = 2%nat.
Proof.
  intros l. split; [apply backwards_is_order|].
  destruct (@snapshot_lists_every_player sampleJSON backwards l bob NewWorld
              backwards_is_order) as (ps & Heq & Hlen & _).
  exists ps. split; [exact Heq|]. rewrite Hlen. compute_done.
Defined.

(** ** What the lobby methods leave alone *)

Section Frames.
Context `{!JSON} (ord : RangeOrder).

Lemma broadcastUnlocked_frame l env w :
  lobbies (broadcastUnlocked ord l env w) = lobbies w ∧
  heap (broadcastUnlocked ord l env w) = heap w ∧
  lobby (broadcastUnlocked ord l env w) = lobby w.
Proof.
  unfold broadcastUnlocked. simpl.
  by destruct (foldl_sends_to (λ kv, sendEnvelope kv.2 env)
                 (ord (tick w) _ (map_to_list (players l))) (set_tick (S (tick w)) w))
    as (_ & _ & _ & ? & ? & ?); [intros kv; apply sendEnvelope_sends_to|].
Qed.

Lemma sendStateToClientUnlocked_frame l c w :
  lobbies (sendStateToClientUnlocked ord l c w) = lobbies w ∧
  heap (sendStateToClientUnlocked ord l c w) = heap w ∧
  lobby (sendStateToClientUnlocked ord l c w) = lobby w.
Proof. by destruct (sendStateToClientUnlocked_sends_to ord l c w) as (_ & _ & _ & ? & ? & ?). Qed.

Lemma sendStateToAllUnlocked_frame l w :
  lobbies (sendStateToAllUnlocked ord l w) = lobbies w ∧
  heap (sendStateToAllUnlocked ord l w) = heap w ∧
  lobby (sendStateToAllUnlocked ord l w) = lobby w.
Proof.
  unfold sendStateToAllUnlocked. simpl.
  by destruct (foldl_sends_to (λ kv, sendStateToClientUnlocked ord l kv.2)
                 (ord (tick w) _ (map_to_list (players l))) (set_tick (S (tick w)) w))
    as (_ & _ & _ & ? & ? & ?); [intros kv; apply sendStateToClientUnlocked_sends_to|].
Qed.

Lemma sendError_frame c msg w :
  lobbies (sendError c msg w) = lobbies w ∧ heap (sendError c msg w) = heap w ∧
  lobby (sendError c msg w) = lobby w.
Proof. by destruct (sendEnvelope_frame c (mkEnvelope MsgError (ErrorPayload msg)) w) as (? & ? & ? & _). Qed.

Lemma addPlayer_frame l c w :
  lobbies (addPlayer ord l c w).2 = lobbies w ∧ heap (addPlayer ord l c w).2 = heap w ∧
  lobby (addPlayer ord l c w).2 = lobby w.
Proof.
  unfold addPlayer. destruct (Lobby_inGame l); [done|].
  case_decide; [done|]. case_decide; [done|]. cbn [snd].
  set (l1 := set_ready _ _). set (env := mkEnvelope _ _).
  destruct (sendStateToClientUnlocked_frame l1 c (broadcastUnlocked ord l1 env w))
    as (-> & -> & ->).
  apply broadcastUnlocked_frame.
Qed.

(** [removePlayer] touches the hub only to delete the entry of its own id,
    and only when it has no player left. *)
Lemma removePlayer_frame l c w :
  heap (removePlayer ord l c w).2 = heap w ∧ lobby (removePlayer ord l c w).2 = lobby w ∧
  l_id (removePlayer ord l c w).1 = l_id l ∧
  (players (removePlayer ord l c w).1 ≠ ∅ ∨ players l !! id c = None →
     lobbies (removePlayer ord l c w).2 = lobbies w) ∧
  (players (removePlayer ord l c w).1 = ∅ → is_Some (players l !! id c) →
     lobbies (removePlayer ord l c w).2 = delete (l_id l) (lobbies w)).
Proof.
  unfold removePlayer. case_decide as Hin.
  2:{ cbn [fst snd]. repeat split; try done. }
  case_decide as Hsize; cbn [fst snd].
  { apply map_size_empty_iff in Hsize. simpl in Hsize.
    split; [done|]. split; [done|]. split; [done|]. split; [|done].
    simpl. intros [?|Hnone]; [done|]. rewrite Hnone in Hin. by destruct Hin. }
  apply map_size_non_empty_iff in Hsize. simpl in Hsize.
  set (l1 := set_ready _ (set_players _ l)).
  set (lw := if decide (hostID l1 = id c) then _ else (l1, w)).
  assert (players lw.1 = players l1 ∧ l_id lw.1 = l_id l ∧ lobbies lw.2 = lobbies w ∧
          heap lw.2 = heap w ∧ lobby lw.2 = lobby w) as (Hpl & Hid & Hl & Hh & Hb).
  { subst lw. case_decide; [|done]. simpl. by destruct (ord _ _ _). }
  destruct lw as [l2 w2]. cbn [fst snd] in *.
  set (env := mkEnvelope _ _).
  destruct (sendStateToAllUnlocked_frame l2 (broadcastUnlocked ord l2 env w2)) as (-> & -> & ->).
  destruct (broadcastUnlocked_frame l2 env w2) as (-> & -> & ->).
  split; [done|]. split; [done|]. split; [done|]. split; [done|].
  rewrite Hpl. simpl. by intros ?.
Qed.

End Frames.

(** ** Lobby fields, players and the directory agree *)

Section Consistency.
Context `{!JSON} (ord : RangeOrder).

Lemma call__eq p (m : Lobby → World → Lobby * World) w l :
  heap w !! p = Some l →
  call_ p m w = set_heap (<[p := (m l w).1]> (heap (m l w).2)) (m l w).2.
Proof. intros Hl. unfold call_, call. rewrite Hl. by destruct (m l w). Qed.

Lemma setLobby_None_absent c w : lobby w !! id c = None → setLobby c None w = w.
Proof. intros Hnone. unfold setLobby, set_lobby. rewrite delete_id; [|done]. by destruct w. Qed.

Lemma handleLeaveLobby_absent c w : lobby w !! id c = None → handleLeaveLobby ord c w = w.
Proof. intros Hnone. unfold handleLeaveLobby. rewrite Hnone. by apply setLobby_None_absent. Qed.

(** The world after a client left the lobby its field pointed to. *)
Lemma handleLeaveLobby_in c w p l :
  lobby w !! id c = Some p → heap w !! p = Some l →
  heap (handleLeaveLobby ord c w)
  = <[p := (removePlayer ord l c (setLobby c None w)).1]> (heap w) ∧
  lobby (handleLeaveLobby ord c w) = delete (id c) (lobby w) ∧
  lobbies (handleLeaveLobby ord c w) = lobbies (removePlayer ord l c (setLobby c None w)).2.
Proof.
  intros Hp Hl. unfold handleLeaveLobby. rewrite Hp. cbn zeta.
  rewrite (call__eq p _ _ l); [|done].
  destruct (removePlayer_frame ord l c (setLobby c None w)) as (Hh & Hb & _).
  unfold set_heap. cbn [heap lobby lobbies]. rewrite Hh, Hb. done.
Qed.

Lemma handleLeaveLobby_consistent c w :
  consistent w → consistent (handleLeaveLobby ord c w).
Proof.
  intros (Ha & Hb & Hc).
  destruct (lobby w !! id c) as [p|] eqn:Hp; [|by rewrite handleLeaveLobby_absent].
  destruct (Ha _ _ Hp) as (l & Hl & Hin).
  destruct (handleLeaveLobby_in c w p l Hp Hl) as (Hheap & Hlobby & Hlobbies).
  set (w1 := setLobby c None w) in *.
  destruct (removePlayer_players ord l c w1) as [[Hpl _]|[Hnone _]];
    [|rewrite Hnone in Hin; by destruct Hin].
  destruct (removePlayer_frame ord l c w1) as (_ & _ & Hid & Hkeep & Hdel).
  set (l' := (removePlayer ord l c w1).1) in *.
  assert (p < length (heap w))%nat as Hlt by (by eapply lookup_lt_Some).
  split; [|split].
  - intros cid q. rewrite Hlobby, Hheap, lookup_delete. case_decide as Hcid; [done|].
    intros Hq. destruct (Ha _ _ Hq) as (lq & Hlq & Hcq).
    destruct (decide (q = p)) as [->|Hne].
    + exists l'. rewrite list_lookup_insert_eq; [|done]. split; [done|].
      rewrite Hpl, lookup_delete_ne; [|done]. by simplify_eq.
    + exists lq. by rewrite list_lookup_insert_ne.
  - intros q lq cid. rewrite Hlobby, Hheap. intros Hq Hcq.
    destruct (decide (q = p)) as [->|Hne].
    + rewrite list_lookup_insert_eq in Hq; [|done]. simplify_eq.
      rewrite Hpl, lookup_delete in Hcq. case_decide as Hcid; [by destruct Hcq|].
      rewrite lookup_delete_ne; [|done]. by eapply Hb.
    + rewrite list_lookup_insert_ne in Hq; [|done].
      pose proof (Hb _ _ _ Hq Hcq) as Hfield.
      rewrite lookup_delete_ne; [done|]. intros <-. by simplify_eq.
  - intros lid q. rewrite Hlobbies, Hheap. intros Hq.
    assert (lobbies w !! lid = Some q ∧ (players l' = ∅ → lid ≠ l_id l)) as [Hq0 Hlid].
    { destruct (decide (players l' = ∅)) as [Hempty|Hne].
      - rewrite (Hdel Hempty Hin) in Hq. simpl in Hq. rewrite lookup_delete in Hq.
        case_decide; [done|]. split; [done|]. by intros _ ->.
      - rewrite Hkeep in Hq; [|by left]. done. }
    destruct (Hc _ _ Hq0) as (lq & Hlq & Hlqid & Hlqne).
    destruct (decide (q = p)) as [->|Hne].
    + simplify_eq. exists l'. rewrite list_lookup_insert_eq; [|done].
      split; [done|]. split; [done|]. intros Hempty. by apply Hlid.
    + exists lq. by rewrite list_lookup_insert_ne.
Qed.

Lemma handleLeaveLobby_field c w : lobby (handleLeaveLobby ord c w) !! id c = None.
Proof.
  destruct (lobby w !! id c) as [p|] eqn:Hp; [|by rewrite handleLeaveLobby_absent].
  destruct (heap w !! p) as [l|] eqn:Hl.
  - destruct (handleLeaveLobby_in c w p l Hp Hl) as (_ & -> & _). apply lookup_delete_eq.
  - unfold handleLeaveLobby, call_, call. rewrite Hp. simpl. rewrite Hl. simpl.
    apply lookup_delete_eq.
Qed.

Lemma handleCreateLobby_consistent c payload entropy w :
  consistent w → consistent (handleCreateLobby ord c payload entropy w).
Proof.
  intros Hw. unfold handleCreateLobby.
  destruct (UnmarshalCreateLobby _) as [pl err].
  case_decide as Hbad.
  { destruct Hw as (Ha & Hb & Hc). destruct (sendError_frame c "invalid lobby name" w)
      as (Hl & Hh & Hf). unfold consistent. by rewrite Hl, Hh, Hf. }
  pose proof (handleLeaveLobby_consistent c w Hw) as (Ha & Hb & Hc).
  pose proof (handleLeaveLobby_field c w) as Hfree.
  set (w1 := handleLeaveLobby ord c w) in *.
  cbn [createLobby]. cbn zeta.
  set (lid := generateID entropy). set (new := NewLobby lid (Name pl) c).
  set (p := length (heap w1)).
  rewrite (call__eq p _ _ new); [|simpl; rewrite lookup_app_r; [by rewrite Nat.sub_diag|done]].
  cbn [fst snd].
  destruct (sendStateToAllUnlocked_frame ord new
              (setLobby c (Some p)
                 (Printf ("lobby created: " +:+ Name pl +:+ " (" +:+ lid +:+ ")")
                    (set_lobbies (<[lid:=p]> (lobbies (set_heap (heap w1 ++ [new]) w1)))
                       (set_heap (heap w1 ++ [new]) w1))))) as (Hl & Hh & Hf).
  unfold sendStateToAll.
  set (w3 := sendStateToAllUnlocked ord new _) in *. simpl in Hl, Hh, Hf.
  assert (heap (set_heap (<[p:=new]> (heap w3)) w3) = (heap w1 ++ [new])%list) as Hheap.
  { simpl. rewrite Hh. apply list_insert_id. rewrite lookup_app_r; [|done].
    by rewrite Nat.sub_diag. }
  unfold consistent. rewrite Hheap. simpl. rewrite Hl, Hf.
  assert (players new !! id c = Some c) as Hnew by (simpl; apply lookup_insert_eq).
  split; [|split].
  - intros cid q. rewrite lookup_insert. case_decide as Hcid.
    + intros [= <-]. exists new. rewrite lookup_app_r; [|done]. rewrite Nat.sub_diag.
      split; [done|]. subst cid. by eexists.
    + intros Hq. destruct (Ha _ _ Hq) as (lq & Hlq & Hcq). exists lq.
      split; [|done]. by apply lookup_app_l_Some.
  - intros q lq cid Hq Hcq. apply lookup_app_Some in Hq as [Hq|[Hge Hq]].
    + pose proof (Hb _ _ _ Hq Hcq) as Hfield. rewrite lookup_insert_ne; [done|].
      intros <-. by rewrite Hfree in Hfield.
    + apply list_lookup_singleton_Some in Hq as [Hq0 <-].
      simpl in Hcq. rewrite lookup_insert in Hcq. case_decide as Hcid.
      * subst cid. rewrite lookup_insert_eq. f_equal. subst p. lia.
      * rewrite lookup_empty in Hcq. by destruct Hcq.
  - intros lid' q. rewrite lookup_insert. case_decide as Hlid.
    + intros [= <-]. exists new. rewrite lookup_app_r; [|done]. rewrite Nat.sub_diag.
      split; [done|]. split; [done|]. simpl. apply insert_non_empty.
    + intros Hq. destruct (Hc _ _ Hq) as (lq & Hlq & ? & ?). exists lq.
      split; [|done]. by apply lookup_app_l_Some.
Qed.

Lemma handleJoinLobby_consistent c payload w :
  consistent w → consistent (handleJoinLobby ord c payload w).
Proof.
  intros Hw. unfold handleJoinLobby.
  destruct (UnmarshalJoinLobby _) as [pl err].
  case_decide as Hbad.
  { destruct Hw as (Ha & Hb & Hc). destruct (sendError_frame c "invalid lobby id" w)
      as (Hl & Hh & Hf). unfold consistent. by rewrite Hl, Hh, Hf. }
  pose proof (handleLeaveLobby_consistent c w Hw) as Hw1.
  pose proof (handleLeaveLobby_field c w) as Hfree.
  set (w1 := handleLeaveLobby ord c w) in *.
  destruct (getLobby (LobbyID pl) w1) as [q|] eqn:Hget.
  2:{ destruct Hw1 as (Ha & Hb & Hc). destruct (sendError_frame c "lobby not found" w1)
        as (Hl & Hh & Hf). unfold consistent. by rewrite Hl, Hh, Hf. }
  destruct Hw1 as (Ha & Hb & Hc).
  destruct (Hc _ _ Hget) as (lq & Hlq & Hlqid & Hlqne).
  unfold call. rewrite Hlq.
  destruct (addPlayer_frame ord lq c w1) as (Hl & Hh & Hf).
  pose proof (addPlayer_maps ord lq c w1) as Hadd.
  destruct (addPlayer ord lq c w1) as [[r l'] w2]. cbn [fst snd] in *.
  assert (q < length (heap w1))%nat as Hlt by (by eapply lookup_lt_Some).
  destruct Hadd as [[Hr ->]|(-> & Hpl & _ & _ & _ & Hid)].
  - destruct r as [e|]; [|done].
    destruct (sendError_frame c e (set_heap (<[q:=lq]> (heap w2)) w2)) as (Hl' & Hh' & Hf').
    unfold consistent. rewrite Hl', Hh', Hf'. simpl. rewrite Hl, Hh, Hf.
    by rewrite list_insert_id.
  - unfold consistent. simpl. rewrite Hl, Hh, Hf. split; [|split].
    + intros cid p. rewrite lookup_insert. case_decide as Hcid.
      * intros [= <-]. exists l'. rewrite list_lookup_insert_eq; [|done].
        split; [done|]. subst cid. rewrite Hpl, lookup_insert_eq. by eexists.
      * intros Hp. destruct (Ha _ _ Hp) as (lp & Hlp & Hcp).
        destruct (decide (p = q)) as [->|Hne].
        -- exists l'. rewrite list_lookup_insert_eq; [|done]. split; [done|].
           simplify_eq. by rewrite Hpl, lookup_insert_ne.
        -- exists lp. by rewrite list_lookup_insert_ne.
    + intros p lp cid Hp Hcp. destruct (decide (p = q)) as [->|Hne].
      * rewrite list_lookup_insert_eq in Hp; [|done]. simplify_eq.
        rewrite Hpl, lookup_insert in Hcp. case_decide as Hcid.
        -- subst cid. by rewrite lookup_insert_eq.
        -- rewrite lookup_insert_ne; [|done]. by eapply Hb.
      * rewrite list_lookup_insert_ne in Hp; [|done].
        pose proof (Hb _ _ _ Hp Hcp) as Hfield. rewrite lookup_insert_ne; [done|].
        intros <-. by rewrite Hfree in Hfield.
    + intros lid p Hp. destruct (Hc _ _ Hp) as (lp & Hlp & Hlpid & Hlpne).
      destruct (decide (p = q)) as [->|Hne].
      * simplify_eq. exists l'. rewrite list_lookup_insert_eq; [|done].
        split; [done|]. split; [done|]. rewrite Hpl. apply insert_non_empty.
      * exists lp. by rewrite list_lookup_insert_ne.
Qed.

End Consistency.

Section Handlers.
Context `{!JSON} (ord : RangeOrder).

Lemma consistent_frame w w' :
  lobbies w' = lobbies w → heap w' = heap w → lobby w' = lobby w →
  consistent w → consistent w'.
Proof. intros Hl Hh Hf. unfold consistent. by rewrite Hl, Hh, Hf. Qed.

Lemma sendError_consistent c msg w : consistent w → consistent (sendError c msg w).
Proof. destruct (sendError_frame c msg w) as (? & ? & ?). by apply consistent_frame. Qed.

Lemma sendLobbyList_consistent c w : consistent w → consistent (sendLobbyList ord c w).
Proof.
  unfold sendLobbyList. simpl. set (env := mkEnvelope _ _).
  destruct (sendEnvelope_frame c env (set_tick (S (tick w)) w)) as (? & ? & ? & _).
  by apply consistent_frame.
Qed.

Lemma handleMessage_consistent c data entropy w :
  handled_in_full data → consistent w → consistent (handleMessage ord c data entropy w).
Proof.
  intros Hkind Hw. unfold handleMessage.
  destruct (UnmarshalEnvelope data) as [env|err] eqn:Henv.
  - destruct (Hkind env Henv) as [Hready Hstart].
    set (w1 := Printf _ w).
    assert (consistent w1) as Hw1 by (by apply (consistent_frame w)).
    case_decide; [by apply sendLobbyList_consistent|].
    case_decide; [by apply handleCreateLobby_consistent|].
    case_decide; [by apply handleJoinLobby_consistent|].
    case_decide; [by apply handleLeaveLobby_consistent|].
    case_decide; [done|]. case_decide; [done|].
    by apply sendError_consistent.
  - apply sendError_consistent. by apply (consistent_frame w).
Qed.

Lemma NewWorld_consistent : consistent NewWorld.
Proof.
  split; [|split].
  - intros cid p Hp. simpl in Hp. by rewrite lookup_empty in Hp.
  - intros p l cid Hp. simpl in Hp. by rewrite lookup_nil in Hp.
  - intros lid p Hp. simpl in Hp. by rewrite lookup_empty in Hp.
Qed.

Lemma serve_consistent frames w :
  Forall (λ f : Client * bytes * bytes, handled_in_full f.1.2) frames →
  consistent w → consistent (serve ord w frames).
Proof.
  unfold serve. intros Hframes. revert w.
  induction Hframes as [|f fs Hf _ IH]; intros w Hw; simpl; [done|].
  apply IH. by apply handleMessage_consistent.
Qed.

End Handlers.

(** X11: leaving is idempotent.  After [handleLeaveLobby] the client's
    lobby field is nil; for a client whose field is nil the handler
    changes nothing at all, so a second leave_lobby right after the
    first, under any iteration order, is without effect. *)
Theorem handleLeaveLobby_idempotent `{!JSON} (ord1 ord2 : RangeOrder) (c : Client) (w : World) :
  lobby (handleLeaveLobby ord1 c w) !! id c = None ∧
  (lobby w !! id c = None → handleLeaveLobby ord1 c w = w) ∧
  handleLeaveLobby ord2 c (handleLeaveLobby ord1 c w) = handleLeaveLobby ord1 c w.
Proof.
  split; [apply handleLeaveLobby_field|]. split; [apply handleLeaveLobby_absent|].
  apply handleLeaveLobby_absent, handleLeaveLobby_field.
Qed.

(** X12: a join_lobby that names no lobby of the directory still takes
    the client out of the lobby it was in.  The handler leaves first and
    looks the lobby up afterwards: the answer is 'lobby not found', the
    client's lobby field is nil, and the client is no player of its
    former lobby any more. *)
Theorem join_of_missing_lobby_still_leaves `{!JSON} (ord : RangeOrder) (c : Client)
    (payload : any) (w : World) (pl : JoinLobbyPayload) :
  UnmarshalJoinLobby (remarshal payload) = (pl, None) →
  LobbyID pl ≠ "" →
  getLobby (LobbyID pl) (handleLeaveLobby ord c w) = None →
  let w' := handleJoinLobby ord c payload w in
  w' = sendError c "lobby not found" (handleLeaveLobby ord c w) ∧
  lobby w' !! id c = None ∧
  (∀ p l, lobby w !! id c = Some p → heap w !! p = Some l →
     ∃ l', heap w' !! p = Some l' ∧ players l' !! id c = None).
Proof.
  intros Hpl Hid Hget. unfold handleJoinLobby. rewrite Hpl.
  rewrite decide_False; [|by intros [?|?]]. rewrite Hget.
  destruct (sendError_frame c "lobby not found" (handleLeaveLobby ord c w)) as (_ & Hh & Hf).
  split; [done|]. cbv zeta. rewrite Hh, Hf. split; [apply handleLeaveLobby_field|].
  intros p l Hp Hl. destruct (handleLeaveLobby_in ord c w p l Hp Hl) as (-> & _).
  eexists. rewrite list_lookup_insert_eq; [|by eapply lookup_lt_Some]. split; [done|].
  apply removePlayer_gone.
Qed.

Lemma join_of_missing_lobby_still_leaves_witness :
  let zeros := "00000000000000000000000000000000" in
  let w := @handleMessage sampleJSON inOrder alice
             (list_byte_of_string "create_lobby Alpha") [] NewWorld in
  let w' := @handleJoinLobby sampleJSON inOrder alice zeros w in
  (@UnmarshalJoinLobby sampleJSON (@remarshal sampleJSON zeros)
   = (Build_JoinLobbyPayload zeros, None) ∧
   zeros ≠ "" ∧
   getLobby zeros w = Some 0%nat ∧
   getLobby zeros (@handleLeaveLobby sampleJSON inOrder alice w) = None) ∧
  w' = @sendError sampleJSON alice "lobby not found" (@handleLeaveLobby sampleJSON inOrder alice w) ∧
  lobbies w' = ∅.
Proof.
  intros zeros w w'.
  assert (getLobby zeros (@handleLeaveLobby sampleJSON inOrder alice w) = None) as Hget
    by compute_done.
  assert (zeros ≠ "") as Hne by done.
  split; [split; [by vm_compute|split; [done|split; [compute_done|done]]]|].
  destruct (@join_of_missing_lobby_still_leaves sampleJSON inOrder alice zeros w
              (Build_JoinLobbyPayload zeros) eq_refl Hne Hget) as (Heq & _).
  split; [exact Heq|]. compute_done.
Defined.

(** X13: the clients' lobby fields, the players of the lobbies and the
    directory of the hub stay in agreement.  In every state the server
    reaches from the empty one by handling frames (any senders, any
    frames other than set_ready and start_game, well-formed or not), a
    client whose field points to a lobby is a player of it, every player
    of a lobby has its field pointing to that lobby, so that nobody is a
    player of two lobbies, and the directory files every lobby under the
    lobby's own id and holds no lobby without players. *)
Theorem served_worlds_are_consistent `{!JSON} (ord : RangeOrder)
    (frames : list (Client * bytes * bytes)) :
  Forall (λ f : Client * bytes * bytes, handled_in_full f.1.2) frames →
  consistent (serve ord NewWorld frames) ∧
  (∀ w, consistent w → consistent (serve ord w frames)) ∧
  (∀ p q l l' cid,
     heap (serve ord NewWorld frames) !! p = Some l →
     heap (serve ord NewWorld frames) !! q = Some l' →
     is_Some (players l !! cid) → is_Some (players l' !! cid) → p = q).
Proof.
  intros Hframes.
  assert (∀ w, consistent w → consistent (serve ord w frames)) as Hserve
    by (intros w; by apply serve_consistent).
  pose proof NewWorld_consistent as Hnew.
  split; [by apply Hserve|]. split; [done|].
  intros p q l l' cid Hp Hq Hl Hl'.
  destruct (Hserve _ Hnew) as (_ & Hb & _).
  pose proof (Hb _ _ _ Hp Hl) as Hfp. pose proof (Hb _ _ _ Hq Hl') as Hfq. congruence.
Qed.

Lemma served_worlds_are_consistent_witness :
  let frames :=
    [(alice, list_byte_of_string "create_lobby Alpha", [x01]);
     (bob, list_byte_of_string "create_lobby Beta", [x02]);
     (carol, list_byte_of_string "join_lobby 02000000000000000000000000000000", []);
     (bob, list_byte_of_string "leave_lobby", []);
     (alice, list_byte_of_string "create_lobby Gamma", [x03])] in
  let w := @serve sampleJSON inOrder NewWorld frames in
  Forall (λ f : Client * bytes * bytes, @handled_in_full sampleJSON f.1.2) frames ∧
  consistent w ∧
  lobbies w = {[ "03000000000000000000000000000000" := 2%nat ]} ∧
  lobby w = {[ id alice := 2%nat ]}.
Proof.
  intros frames w.
  assert (Forall (λ f : Client * bytes * bytes, @handled_in_full sampleJSON f.1.2) frames)
    as Hframes.
  { subst frames.
    repeat (apply Forall_cons_2;
      [intros env Henv; vm_compute in Henv; injection Henv as <-; by split|]).
    apply Forall_nil_2. }
  split; [exact Hframes|].
  split; [by apply (@served_worlds_are_consistent sampleJSON inOrder frames Hframes)|].
  split; compute_done.
Defined.

(** ** The list of lobbies *)

Section LobbyList.
Context `{!JSON} (ord : RangeOrder).

Lemma infos_of_directory (hp : list Lobby) (kvs : list (string * nat)) :
  Forall (λ kv : string * nat,
            ∃ l, hp !! kv.2 = Some l ∧ l_id l = kv.1 ∧ players l ≠ ∅) kvs →
  let infos := omap (λ kv : string * nat, Info <$> hp !! kv.2) kvs in
  map LI_ID infos = kvs.*1 ∧
  Forall (λ i, ∃ kv l, kv ∈ kvs ∧ hp !! kv.2 = Some l ∧ i = Info l ∧
                      LI_ID i = kv.1 ∧ players l ≠ ∅) infos.
Proof.
  induction 1 as [|[lid p] kvs (l & Hl & Hid & Hne) _ IH]; [by split|].
  simpl in Hl, Hid. destruct IH as [IH1 IH2].
  change (omap (λ kv : string * nat, Info <$> hp !! kv.2) ((lid, p) :: kvs))
    with (match Info <$> hp !! p with
          | Some i => i :: omap (λ kv : string * nat, Info <$> hp !! kv.2) kvs
          | None => omap (λ kv : string * nat, Info <$> hp !! kv.2) kvs
          end).
  rewrite Hl. cbn [fmap option_fmap option_map map]. split.
  { rewrite IH1. cbn [fmap list_fmap fst]. simpl. by rewrite Hid. }
  constructor.
  - exists (lid, p), l. split; [left|]. done.
  - eapply Forall_impl; [exact IH2|]. intros i (kv & l' & Hkv & ?). exists kv, l'.
    split; [by right|done].
Qed.

End LobbyList.

(** X14: the lobby_list envelope [sendLobbyList] sends, to the requester
    only, has exactly one entry for every lobby of the directory, under
    the lobby's id, and none else; each entry gives the lobby's name, the
    number of its players, which is at least 1, and [MaxPlayers] 4.  (The
    directory is as the server keeps it: consistent.) *)
Theorem lobby_list_lists_every_lobby `{!JSON} (ord : RangeOrder) (c : Client) (w : World) :
  is_order ord →
  consistent w →
  ∃ infos,
    sendLobbyList ord c w
    = sendEnvelope c (mkEnvelope MsgLobbyList (LobbyListPayload infos))
        (set_tick (S (tick w)) w) ∧
    length infos = size (lobbies w) ∧
    NoDup (map LI_ID infos) ∧
    (∀ lid, lid ∈ map LI_ID infos ↔ is_Some (lobbies w !! lid)) ∧
    (∀ i, i ∈ infos →
       ∃ p l, lobbies w !! LI_ID i = Some p ∧ heap w !! p = Some l ∧
              LI_Name i = l_name l ∧ PlayerCount i = size (players l) ∧
              (1 ≤ PlayerCount i)%nat ∧ MaxPlayers i = 4%nat).
Proof.
  intros Hord (_ & _ & Hdir). unfold sendLobbyList. simpl.
  pose proof (Hord (tick w) _ (map_to_list (lobbies w))) as Hperm.
  set (kvs := ord (tick w) _ (map_to_list (lobbies w))) in *.
  assert (Forall (λ kv : string * nat,
                    ∃ l, heap w !! kv.2 = Some l ∧ l_id l = kv.1 ∧ players l ≠ ∅) kvs) as Hkvs.
  { apply Forall_forall. intros [lid p] Hin. rewrite Hperm in Hin.
    apply elem_of_map_to_list in Hin. by apply Hdir. }
  destruct (infos_of_directory (heap w) kvs Hkvs) as [Hids Hinfos].
  eexists. split; [reflexivity|].
  split; [|split; [|split]].
  - rewrite <- (length_map LI_ID), Hids, length_fmap, Hperm. apply length_map_to_list.
  - rewrite Hids, Hperm. apply NoDup_fst_map_to_list.
  - intros lid. rewrite Hids, Hperm, list_elem_of_fmap. split.
    + intros [[lid' p] [-> Hin]]. apply elem_of_map_to_list in Hin. by eexists.
    + intros [p Hp]. exists (lid, p). split; [done|]. by apply elem_of_map_to_list.
  - intros i Hi. rewrite Forall_forall in Hinfos.
    destruct (Hinfos i Hi) as ([lid p] & l & Hkv & Hl & -> & Hid & Hne).
    rewrite Hperm in Hkv. apply elem_of_map_to_list in Hkv. simpl in *.
    exists p, l. split; [by rewrite Hid|]. split; [done|]. split; [done|]. split; [done|].
    split; [|done]. apply map_size_non_empty_iff in Hne. lia.
Qed.

Lemma lobby_list_lists_every_lobby_witness :
  let w := @serve sampleJSON inOrder NewWorld
             [(alice, list_byte_of_string "create_lobby Alpha", [x01]);
              (bob, list_byte_of_string "create_lobby Beta", [x02])] in
  (is_order backwards ∧ consistent w) ∧
  ∃ infos,
    @sendLobbyList sampleJSON backwards carol w
    = @sendEnvelope sampleJSON carol (mkEnvelope MsgLobbyList (LobbyListPayload infos))
        (set_tick (S (tick w)) w) ∧
    length infos = 2%nat.
Proof.
  intros w.
  assert (consistent w) as Hw.
  { apply (@serve_consistent sampleJSON inOrder); [|apply NewWorld_consistent].
    repeat (apply Forall_cons_2;
      [intros env Henv; vm_compute in Henv; injection Henv as <-; by split|]).
    apply Forall_nil_2. }
  split; [split; [apply backwards_is_order|done]|].
  destruct (@lobby_list_lists_every_lobby sampleJSON backwards carol w backwards_is_order Hw)
    as (infos & Heq & Hlen & _).
  exists infos. split; [exact Heq|]. rewrite Hlen. compute_done.
Defined.

(** ** Identifiers are as unique as the random bytes *)

Lemma nibble_hexdigit n : (n < 16)%N → nibble (hexdigit n) = n.
Proof.
  intros Hn. rewrite <- (N2Nat.id n) at 2. unfold hexdigit.
  assert (N.to_nat n < 16)%nat as Hlt by lia. revert Hlt. generalize (N.to_nat n) as k.
  intros k Hk. do 16 (destruct k as [|k]; [by vm_compute|]). lia.
Qed.

Lemma byte_of_nibbles x y :
  (Byte.to_N x / 16 = Byte.to_N y / 16)%N → (Byte.to_N x mod 16 = Byte.to_N y mod 16)%N →
  x = y.
Proof.
  intros Hhi Hlo.
  assert (Byte.to_N x = Byte.to_N y) as Heq.
  { rewrite (N.div_mod' (Byte.to_N x) 16), (N.div_mod' (Byte.to_N y) 16). by rewrite Hhi, Hlo. }
  pose proof (Byte.of_to_N x) as Hx. rewrite Heq, Byte.of_to_N in Hx. by injection Hx.
Qed.

Lemma EncodeToString_inj b1 b2 : EncodeToString b1 = EncodeToString b2 → b1 = b2.
Proof.
  revert b2. induction b1 as [|x b1 IH]; intros [|y b2]; simpl; try done.
  intros [= Hhi Hlo Hrest]. f_equal; [|by apply IH].
  assert (∀ z : byte, (Byte.to_N z / 16 < 16)%N) as Hdiv.
  { intros z. apply N.Div0.div_lt_upper_bound. pose proof (Byte.to_N_bounded z). lia. }
  assert (∀ z : byte, (Byte.to_N z mod 16 < 16)%N) as Hmod.
  { intros z. by apply N.mod_lt. }
  apply byte_of_nibbles.
  - rewrite <- (nibble_hexdigit _ (Hdiv x)), <- (nibble_hexdigit _ (Hdiv y)). by rewrite Hhi.
  - rewrite <- (nibble_hexdigit _ (Hmod x)), <- (nibble_hexdigit _ (Hmod y)). by rewrite Hlo.
Qed.

(** X15: [generateID] loses nothing of its 16 random bytes: two calls
    return the same id only if they drew the same 16 bytes (ids collide
    only when the random source repeats itself), and the id is the
    lower-case hex text of those bytes, two digits a byte, high digit
    first. *)
Theorem generateID_injective (e1 e2 : bytes) :
  length e1 = 16%nat → length e2 = 16%nat →
  (generateID e1 = generateID e2 → e1 = e2) ∧
  ∀ x rest, e1 = x :: rest →
    ∃ tail, generateID e1
            = String (hexdigit (Byte.to_N x / 16)) (String (hexdigit (Byte.to_N x mod 16)) tail).
Proof.
  intros H1 H2. unfold generateID.
  rewrite !take_app_le, !firstn_all2 by lia. split; [apply EncodeToString_inj|].
  intros x rest ->. simpl. by eexists.
Qed.

Lemma generateID_injective_witness :
  let e1 := x4f :: xa0 :: replicate 14 x00 in
  let e2 := xa0 :: x4f :: replicate 14 x00 in
  (length e1 = 16%nat ∧ length e2 = 16%nat) ∧
  generateID e1 = "4fa00000000000000000000000000000" ∧
  generateID e2 = "a04f0000000000000000000000000000" ∧
  (generateID e1 = generateID e2 → e1 = e2).
Proof.
  intros e1 e2. split; [by split|]. split; [reflexivity|]. split; [reflexivity|].
  by apply (generateID_injective e1 e2 eq_refl eq_refl).
Defined.

(** ** The registry of clients *)

Section Registry.
Context `{!JSON} (ord : RangeOrder).

Lemma unregister_absent c h : clients h !! id c = None → unregister ord c h = Some h.
Proof. intros Hnone. unfold unregister. by rewrite Hnone. Qed.

Lemma Run_safe events h :
  NoDup (registrations events) →
  (∀ i, i ∈ registrations events → (i ∉ closed h) ∧ clients h !! i = None) →
  dom (clients h) ## closed h →
  is_Some (Run ord h events).
Proof.
  revert h. induction events as [|[c|c] events IH]; intros h Hnd Hnew Hdisj; simpl.
  - by eexists.
  - simpl in Hnd, Hnew. apply NoDup_cons in Hnd as [Hc Hnd].
    destruct (Hnew (id c)) as [Hopen Hfree]; [by left|].
    apply IH; [done| |].
    + intros i Hi. destruct (Hnew i) as [? ?]; [by right|]. split; [done|].
      simpl. rewrite lookup_insert_ne; [done|]. by intros <-.
    + simpl. rewrite dom_insert_L. apply disjoint_union_l. split; [|done].
      by apply disjoint_singleton_l.
  - simpl in Hnd, Hnew. unfold unregister.
    destruct (clients h !! id c) as [x|] eqn:Hreg; [|by apply IH].
    assert (id c ∉ closed h) as Hopen.
    { intros Hin. apply (Hdisj (id c)); [|done]. apply elem_of_dom. by eexists. }
    rewrite decide_False; [|done]. apply IH; [done| |].
    + intros i Hi. destruct (Hnew i Hi) as [? Hfree]. simpl.
      assert (i ≠ id c) by (intros ->; by rewrite Hreg in Hfree).
      split; [|by rewrite lookup_delete_ne].
      apply not_elem_of_union. split; [by apply not_elem_of_singleton|done].
    + simpl. rewrite dom_delete_L. apply disjoint_union_r. split.
      * by apply disjoint_difference_l1.
      * by apply disjoint_difference_l2.
Qed.

End Registry.

(** X16: what an unregistration does.  For a registered client whose
    channel is open, [Run] takes the client out of its lobby, closes its
    channel and deletes it from [clients]: afterwards its lobby field is
    nil, no lobby has it as a player (so no broadcast is sent to the
    closed channel), the world is still consistent, and a second
    unregistration of the client changes nothing. *)
Theorem unregister_takes_the_client_out `{!JSON} (ord ord2 : RangeOrder) (c x : Client)
    (h : HubState) :
  clients h !! id c = Some x →
  id c ∉ closed h →
  consistent (world h) →
  ∃ h', unregister ord c h = Some h' ∧
        clients h' = delete (id c) (clients h) ∧
        closed h' = {[ id c ]} ∪ closed h ∧
        lobby (world h') !! id c = None ∧
        (∀ p l, heap (world h') !! p = Some l → players l !! id c = None) ∧
        consistent (world h') ∧
        unregister ord2 c h' = Some h'.
Proof.
  intros Hreg Hopen Hw. unfold unregister at 1. rewrite Hreg, decide_False; [|done].
  eexists. split; [reflexivity|]. cbn [world clients closed].
  pose proof (handleLeaveLobby_consistent ord c (world h) Hw) as Hw'.
  pose proof (handleLeaveLobby_field ord c (world h)) as Hfield.
  assert (consistent (Printf ("client unregistered: " +:+ id c +:+ " (total: "
                              +:+ pretty.pretty (size (delete (id c) (clients h))) +:+ ")")
                        (handleLeaveLobby ord c (world h)))) as Hw''
    by (by apply (consistent_frame (handleLeaveLobby ord c (world h)))).
  split; [done|]. split; [done|]. split; [done|]. split; [|split; [done|]].
  - intros p l Hl. simpl in Hl. destruct Hw' as (_ & Hb & _).
    destruct (players l !! id c) as [y|] eqn:Hy; [|done].
    assert (lobby (handleLeaveLobby ord c (world h)) !! id c = Some p) as Hp
      by (apply (Hb p l); [done|by eexists]).
    by rewrite Hfield in Hp.
  - apply unregister_absent. simpl. apply lookup_delete_eq.
Qed.

Lemma unregister_takes_the_client_out_witness :
  let w := @serve sampleJSON inOrder NewWorld
             [(alice, list_byte_of_string "create_lobby Alpha", [x01])] in
  let h := mkHub w {[ id alice := alice ]} ∅ in
  (clients h !! id alice = Some alice ∧ (id alice ∉ closed h) ∧ consistent (world h)) ∧
  lobbies w = {[ "01000000000000000000000000000000" := 0%nat ]} ∧
  ∃ h', @unregister sampleJSON inOrder alice h = Some h' ∧
        clients h' = ∅ ∧ lobbies (world h') = ∅ ∧ lobby (world h') = ∅.
Proof.
  intros w h.
  assert (consistent w) as Hw.
  { apply (@serve_consistent sampleJSON inOrder); [|apply NewWorld_consistent].
    apply Forall_cons_2; [|apply Forall_nil_2].
    intros env Henv; vm_compute in Henv; injection Henv as <-; by split. }
  assert (id alice ∉ closed h) as Hopen by (simpl; apply not_elem_of_empty).
  split; [by split; [|split]|]. split; [compute_done|].
  destruct (@unregister_takes_the_client_out sampleJSON inOrder inOrder alice alice h
              eq_refl Hopen Hw) as (h' & Heq & _).
  exists h'. split; [exact Heq|].
  assert (Some h' = @unregister sampleJSON inOrder alice h) as Hh' by done.
  vm_compute in Hh'. injection Hh' as ->. repeat split; compute_done.
Defined.

(** X17: the hub never closes a channel twice.  Whatever requests [Run]
    handles, in whatever order, with unregistrations repeated or of
    clients it never registered, it does not panic as long as no client
    is registered twice (every connection gets a client of its own). *)
Theorem Run_never_closes_twice `{!JSON} (ord : RangeOrder) (events : list HubEvent) :
  NoDup (registrations events) →
  is_Some (Run ord NewHub events).
Proof.
  intros Hnd. apply Run_safe; [done| |].
  - intros i _. simpl. split; [apply not_elem_of_empty|apply lookup_empty].
  - simpl. rewrite dom_empty_L. apply disjoint_empty_l.
Qed.

Lemma Run_never_closes_twice_witness :
  let events := [Register alice; Unregister bob; Register bob; Unregister alice;
                 Unregister alice; Unregister bob] in
  NoDup (registrations events) ∧
  is_Some (@Run sampleJSON inOrder NewHub events) ∧
  (clients <$> @Run sampleJSON inOrder NewHub events) = Some ∅ ∧
  (closed <$> @Run sampleJSON inOrder NewHub events) = Some {[ id alice; id bob ]}.
Proof.
  intros events.
  assert (NoDup (registrations events)) as Hnd by compute_done.
  split; [done|]. split; [by apply (@Run_never_closes_twice sampleJSON inOrder events)|].
  split; compute_done.
Defined.

(** ** Creating and joining through the dispatcher *)

Section CreateJoin.
Context `{!JSON} (ord : RangeOrder).

Lemma range_single {A} (k : string) (x : A) w :
  is_order ord → (range ord ({[ k := x ]} : gmap string A) w).1 = [(k, x)].
Proof.
  intros Hord. simpl. apply Permutation_singleton_r.
  rewrite (Hord (tick w) _ _). by rewrite map_to_list_singleton.
Qed.

(** The snapshot of a lobby that has the one player [c0]. *)
Lemma sendStateToAllUnlocked_single l c0 w :
  is_order ord → players l = {[ id c0 := c0 ]} →
  sendStateToAllUnlocked ord l w
  = sendEnvelope c0
      (mkEnvelope MsgLobbyState
         (OfLobbyState
            (mkLobbyState (l_id l) (l_name l)
               [mkPlayerInfo (id c0) (name c0) (default false (ready l !! id c0))
                  (bool_decide (id c0 = hostID l))]
               (bool_decide (id c0 = hostID l)))))
      (set_tick (S (S (tick w))) w).
Proof.
  intros Hord Hpl. unfold sendStateToAllUnlocked.
  pose proof (range_single (id c0) c0 w Hord) as Hr. rewrite <- Hpl in Hr.
  destruct (range ord (players l) w) as [kvs w1] eqn:Hrange. simpl in Hr. subst kvs.
  assert (w1 = set_tick (S (tick w)) w) as -> by (by injection Hrange).
  cbn [foldl snd]. unfold sendStateToClientUnlocked.
  pose proof (range_single (id c0) c0 (set_tick (S (tick w)) w) Hord) as Hr1.
  rewrite <- Hpl in Hr1.
  destruct (range ord (players l) (set_tick (S (tick w)) w)) as [kvs w2] eqn:Hrange1.
  simpl in Hr1. subst kvs.
  assert (w2 = set_tick (S (S (tick w))) w) as -> by (by injection Hrange1).
  done.
Qed.

End CreateJoin.

(** X18: a create_lobby with a name makes the sender the host and only
    player of a new lobby: the sender first leaves the lobby it was in;
    the new lobby is filed in the directory under the generated id; the
    sender's lobby field points to it; and the sender is sent, once, the
    snapshot of the lobby that lists it alone, not ready, as host, with
    [YouAreHost] set. *)
Theorem create_lobby_makes_sender_host `{!JSON} (ord : RangeOrder) (c : Client)
    (payload : any) (entropy : bytes) (w : World) (pl : CreateLobbyPayload) (data : bytes) :
  is_order ord →
  UnmarshalCreateLobby (remarshal payload) = (pl, None) →
  Name pl ≠ "" →
  let w1 := handleLeaveLobby ord c w in
  let lid := generateID entropy in
  let p := length (heap w1) in
  let w' := handleCreateLobby ord c payload entropy w in
  Marshal (mkEnvelope MsgLobbyState
             (OfLobbyState
                (mkLobbyState lid (Name pl) [mkPlayerInfo (id c) (name c) false true] true)))
  = inl data →
  getLobby lid w' = Some p ∧
  lobby w' !! id c = Some p ∧
  heap w' = (heap w1 ++ [NewLobby lid (Name pl) c])%list ∧
  (∀ cid, cid ≠ id c → queue w' cid = queue w1 cid) ∧
  queue w' (id c) = delivered w1 data (id c).
Proof.
  intros Hord Hpl Hname w1 lid p w' HM. subst w'. unfold handleCreateLobby.
  rewrite Hpl. rewrite decide_False; [|by intros [?|?]].
  fold w1. cbn [createLobby]. cbn zeta. fold lid. fold p.
  set (new := NewLobby lid (Name pl) c).
  rewrite (call__eq p _ _ new); [|simpl; rewrite lookup_app_r; [by rewrite Nat.sub_diag|done]].
  cbn [fst snd]. unfold sendStateToAll.
  set (w2 := setLobby c (Some p) _).
  assert (players new = {[ id c := c ]}) as Hplayers by (simpl; apply insert_empty).
  rewrite (sendStateToAllUnlocked_single ord new c w2 Hord Hplayers).
  assert (default false (ready new !! id c) = false) as -> by (simpl; by rewrite lookup_insert_eq).
  assert (bool_decide (id c = hostID new) = true) as -> by (by apply bool_decide_eq_true).
  set (env := mkEnvelope MsgLobbyState _) in *.
  set (w3 := set_tick _ w2).
  destruct (sendEnvelope_frame c env w3) as (Hl & Hh & Hf & _).
  unfold getLobby. unfold set_heap. cbn [lobbies heap lobby]. rewrite Hl, Hh, Hf.
  split; [simpl; apply lookup_insert_eq|]. split; [simpl; apply lookup_insert_eq|].
  split; [simpl; apply list_insert_id; rewrite lookup_app_r; [by rewrite Nat.sub_diag|done]|].
  split.
  - intros cid Hne. unfold queue at 1. cbn [send].
    change (queue (sendEnvelope c env w3) cid = queue w1 cid).
    by rewrite sendEnvelope_other.
  - unfold queue at 1. cbn [send].
    change (queue (sendEnvelope c env w3) (id c) = delivered w1 data (id c)).
    by rewrite (sendEnvelope_self c env w3 data HM).
Qed.

Lemma create_lobby_makes_sender_host_witness :
  let w' := @handleCreateLobby sampleJSON backwards bob "Beta" [x0b] NewWorld in
  (is_order backwards ∧
   @UnmarshalCreateLobby sampleJSON (@remarshal sampleJSON "Beta")
   = (Build_CreateLobbyPayload "Beta", None) ∧
   "Beta" ≠ "") ∧
  getLobby "0b000000000000000000000000000000" w' = Some 0%nat ∧
  lobby w' !! id bob = Some 0%nat ∧
  queue w' (id bob) = [list_byte_of_string "lobby_state"].
Proof.
  intros w'.
  assert ("Beta" ≠ "") as Hname by done.
  split; [split; [apply backwards_is_order|split; [by vm_compute|done]]|].
  destruct (@create_lobby_makes_sender_host sampleJSON backwards bob "Beta" [x0b] NewWorld
              (Build_CreateLobbyPayload "Beta") (list_byte_of_string "lobby_state")
              backwards_is_order eq_refl Hname eq_refl) as (Hget & Hfield & _ & _ & Hq).
  split; [exact Hget|]. split; [exact Hfield|]. subst w'. rewrite Hq. compute_done.
Defined.

(** X19: how a join_lobby for a lobby of the directory ends.  The client
    has left its former lobby before the target is even asked.  When
    [addPlayer] refuses (game in progress, lobby full, already a player)
    the refusal is sent to the client as an error, the target lobby is as
    it was and the client's lobby field is nil: the client is in no lobby
    at all.  When [addPlayer] accepts, the client's lobby field points to
    the target, of which it is a player. *)
Theorem join_lobby_outcome `{!JSON} (ord : RangeOrder) (c : Client) (payload : any)
    (w : World) (pl : JoinLobbyPayload) (q : nat) (lq : Lobby) :
  UnmarshalJoinLobby (remarshal payload) = (pl, None) →
  LobbyID pl ≠ "" →
  let w1 := handleLeaveLobby ord c w in
  let w' := handleJoinLobby ord c payload w in
  getLobby (LobbyID pl) w1 = Some q →
  heap w1 !! q = Some lq →
  (∀ e, (addPlayer ord lq c w1).1.1 = Some e →
     w' = sendError c e w1 ∧ lobby w' !! id c = None ∧ heap w' !! q = Some lq) ∧
  ((addPlayer ord lq c w1).1.1 = None →
     lobby w' !! id c = Some q ∧
     heap w' !! q = Some (addPlayer ord lq c w1).1.2 ∧
     players (addPlayer ord lq c w1).1.2 !! id c = Some c).
Proof.
  intros Hpl Hid w1 w' Hget Hlq. subst w'. unfold handleJoinLobby.
  rewrite Hpl. rewrite decide_False; [|by intros [?|?]].
  fold w1. rewrite Hget. unfold call. rewrite Hlq.
  destruct (addPlayer_frame ord lq c w1) as (Hl & Hh & Hf).
  pose proof (addPlayer_maps ord lq c w1) as Hmaps.
  pose proof (addPlayer_error_unchanged ord lq c w1) as Herr.
  destruct (addPlayer ord lq c w1) as [[r l'] w2]. cbn [fst snd] in *.
  assert (q < length (heap w1))%nat as Hlt by (by eapply lookup_lt_Some).
  split.
  - intros e ->. destruct (Herr e l' w2 eq_refl) as [-> ->].
    assert (set_heap (<[q:=lq]> (heap w1)) w1 = w1) as ->.
    { unfold set_heap. rewrite list_insert_id; [|done]. by destruct w1. }
    destruct (sendError_frame c e w1) as (_ & Hh' & Hf').
    split; [done|]. rewrite Hh', Hf'. split; [apply handleLeaveLobby_field|done].
  - intros ->. destruct Hmaps as [[? _]|(_ & Hplayers & _)]; [done|].
    simpl. rewrite Hh. split; [apply lookup_insert_eq|].
    split; [by apply list_lookup_insert_eq|]. rewrite Hplayers. apply lookup_insert_eq.
Qed.

Lemma join_lobby_outcome_witness :
  let full := waitingLobby alice [bob; carol; dave] in
  let own := NewLobby "e4100a5" "Echo" erin in
  let w := mkWorld {[ l_id full := 0%nat; l_id own := 1%nat ]} [full; own] ∅
            {[ id alice := 0%nat; id bob := 0%nat; id carol := 0%nat; id dave := 0%nat;
               id erin := 1%nat ]} [] 0 in
  let w1 := @handleLeaveLobby sampleJSON inOrder erin w in
  let w' := @handleJoinLobby sampleJSON inOrder erin (l_id full) w in
  (@UnmarshalJoinLobby sampleJSON (@remarshal sampleJSON (l_id full))
   = (Build_JoinLobbyPayload (l_id full), None) ∧
   l_id full ≠ "" ∧ getLobby (l_id full) w1 = Some 0%nat ∧ heap w1 !! 0%nat = Some full ∧
   (@addPlayer sampleJSON inOrder full erin w1).1.1 = Some RoomFull) ∧
  w' = @sendError sampleJSON erin RoomFull w1 ∧
  lobby w !! id erin = Some 1%nat ∧
  lobby w' !! id erin = None ∧
  lobbies w' = {[ l_id full := 0%nat ]}.
Proof.
  intros full own w w1 w'.
  assert (l_id full ≠ "") as Hid by done.
  assert (getLobby (l_id full) w1 = Some 0%nat) as Hget by compute_done.
  assert (heap w1 !! 0%nat = Some full) as Hfull by compute_done.
  assert ((@addPlayer sampleJSON inOrder full erin w1).1.1 = Some RoomFull) as Hadd
    by compute_done.
  split; [split; [by vm_compute|split; [done|split; [done|split; [done|done]]]]|].
  destruct (@join_lobby_outcome sampleJSON inOrder erin (l_id full) w
              (Build_JoinLobbyPayload (l_id full)) 0%nat full eq_refl Hid Hget Hfull)
    as (Hrefused & _).
  destruct (Hrefused RoomFull Hadd) as (Heq & Hfield & _).
  split; [exact Heq|]. split; [compute_done|]. split; [exact Hfield|]. compute_done.
Defined.
